(** * Popper Poi: the page's interaction script (src/script.js)

    A shallow embedding of the script and of the part of the DOM it touches.

    - The document is the list of its elements in tree order; an element
      reference (a JS object reference) is the element's position in that
      list.  On a document whose footer paragraph holds text only, the
      script never creates, removes or moves an element, so the positions
      are stable.
    - A lookup that finds nothing is [None] (JS [null]); using [None] as an
      object raises [TypeError], as in the engine.
    - Strings are byte strings (UTF-8).  Every pattern the script searches
      for is ASCII, so positions of matches agree with the engine's UTF-16
      view.
    - The inline style fields hold the text last assigned to them.
    - An element holds the data of its Text children; [textContent] and
      [innerHTML] are derived from it.  The [innerHTML] getter and setter
      are modelled for an element whose children are text: the getter
      serialises the text, the setter parses what it is given and replaces
      the text.  Assigned to an element that has element children, the
      setter would replace those by new elements; the properties of the
      footer paragraph are therefore stated for a paragraph with text
      only. *)

From Stdlib Require Import ZArith String Ascii List Lia Bool.
From stdpp Require Import base decidable option list sets strings pretty.

Local Open Scope string_scope.
Local Open Scope list_scope.
Local Open Scope nat_scope.

(* stdpp's solvers clear hypotheses they may already have consumed. *)
#[local] Set Warnings "-clear-no-such-hyp".

(** ** DOMTokenList: the ordered set of class tokens *)

Module TokenList.

Definition contains (tok : string) (l : list string) : bool :=
  bool_decide (tok ∈ l).

(** [add]: appends the token unless it is already present. *)
Definition add (tok : string) (l : list string) : list string :=
  if contains tok l then l else l ++ [tok].

(** [remove]: drops the token. *)
Definition remove (tok : string) (l : list string) : list string :=
  filter (λ t, t ≠ tok) l.

(** [toggle]: removes the token when present (result [false]), adds it
    otherwise (result [true]). *)
Definition toggle (tok : string) (l : list string) : bool * list string :=
  if contains tok l then (false, remove tok l) else (true, add tok l).

End TokenList.

(** ** String.prototype.replace with a string pattern *)

Module Str.

Fixpoint drop (n : nat) (s : string) : string :=
  match n, s with
  | S n', String _ s' => drop n' s'
  | _, _ => s
  end.

(** [replace pat rep s]: the leftmost occurrence of [pat] in [s] is
    replaced by [rep]; without an occurrence [s] is returned.  ([rep] is
    taken literally: the script's replacement is a year number, whose text
    holds no [$] pattern.) *)
Fixpoint replace (pat rep s : string) : string :=
  if String.prefix pat s then rep +:+ drop (String.length pat) s
  else match s with
       | EmptyString => EmptyString
       | String c s' => String c (replace pat rep s')
       end.

(** [occurs_at pat s i]: [pat] occurs in [s] at offset [i]. *)
Definition occurs_at (pat s : string) (i : nat) : Prop :=
  ∃ pre post, s = pre +:+ pat +:+ post ∧ String.length pre = i.

(** Number::toString of an integral Number below 10^21 in magnitude. *)
Definition of_number (z : Z) : string := pretty z.

End Str.

(** ** Text in markup: the serialiser and the fragment parser *)

Module Html.

Definition CR : ascii := "013".
Definition LF : ascii := "010".
Definition NUL : ascii := "000".

(** U+00A0, UTF-8 encoded. *)
Definition nbsp : string := String "194" (String "160" "").

(** Serialising the data of a Text node: '&', '<', '>' and U+00A0 are
    written as character references. *)
Fixpoint escape (s : string) : string :=
  match s with
  | "" => ""
  | String c s' =>
      if Ascii.eqb c "&" then "&amp;" +:+ escape s'
      else if Ascii.eqb c "<" then "&lt;" +:+ escape s'
      else if Ascii.eqb c ">" then "&gt;" +:+ escape s'
      else match s' with
           | String c' s'' =>
               if Ascii.eqb c "194" && Ascii.eqb c' "160"
               then "&nbsp;" +:+ escape s''
               else String c (escape s')
           | "" => String c ""
           end
  end.

(** The parser's input stream: CR LF and a lone CR become LF. *)
Fixpoint normalize_newlines (s : string) : string :=
  match s with
  | "" => ""
  | String c s' =>
      if Ascii.eqb c CR
      then String LF
             match s' with
             | String c' s'' =>
                 if Ascii.eqb c' LF then normalize_newlines s''
                 else normalize_newlines s'
             | "" => ""
             end
      else String c (normalize_newlines s')
  end.

(** The tokenizer on text: the character references the serialiser writes
    are read back as the characters they stand for. *)
Fixpoint decode (s : string) : string :=
  match s with
  | "" => ""
  | String c s' =>
      if Ascii.eqb c "&"
      then match s' with
           | String "a" (String "m" (String "p" (String ";" r))) => String "&" (decode r)
           | String "l" (String "t" (String ";" r)) => String "<" (decode r)
           | String "g" (String "t" (String ";" r)) => String ">" (decode r)
           | String "n" (String "b" (String "s" (String "p" (String ";" r)))) =>
               nbsp +:+ decode r
           | _ => String c (decode s')
           end
      else String c (decode s')
  end.

(** Tree construction ignores U+0000. *)
Fixpoint drop_nul (s : string) : string :=
  match s with
  | "" => ""
  | String c s' => if Ascii.eqb c NUL then drop_nul s' else String c (drop_nul s')
  end.

(** Parsing a fragment that holds no tag and no character reference other
    than those of [escape]: the data of the one Text node it yields.  What
    the script assigns is the serialisation of text with a number put in
    (see [replace_escape]), so it is such a fragment. *)
Definition parse_text (s : string) : string :=
  drop_nul (decode (normalize_newlines s)).

(** The characters [escape] writes a reference for, and the first byte of
    U+00A0. *)
Definition special (c : ascii) : bool :=
  Ascii.eqb c "&" || Ascii.eqb c "<" || Ascii.eqb c ">" || Ascii.eqb c "194".

(** [occurs c s]: the character [c] occurs in [s]. *)
Fixpoint occurs (c : ascii) (s : string) : bool :=
  match s with
  | "" => false
  | String x s' => Ascii.eqb x c || occurs c s'
  end.

(** The characters of a number's text: digits and the minus sign. *)
Definition year_char (c : ascii) : bool :=
  existsb (Ascii.eqb c) (list_ascii_of_string "0123456789-").

Fixpoint year_text (s : string) : bool :=
  match s with
  | "" => true
  | String c s' => year_char c && year_text s'
  end.

End Html.

(** ** Elements and documents *)

Record Style := mkStyle {
  animation : string;
  boxShadow : string
}.

(** An element, with what the script reads or changes of it.  [texts]
    holds the data of its Text children in order: [texts !! i] is the text
    before its [i]-th element child, the last entry the text after the last
    one; an element whose children are text has one entry, and an empty
    entry stands for no Text node at that place.  Its element children are
    the elements whose [parentNode] it is. *)
Record Element := mkElement {
  localName : string;
  idAttr : option string;
  hrefAttr : option string;
  parentNode : option nat;
  classList : list string;
  style : Style;
  texts : list string
}.

Abbreviation Document := (list Element).

#[global] Instance Style_eq_dec : EqDecision Style.
Proof. solve_decision. Defined.

#[global] Instance Element_eq_dec : EqDecision Element.
Proof. solve_decision. Defined.

Definition with_classList (f : list string → list string) (e : Element) : Element :=
  mkElement (localName e) (idAttr e) (hrefAttr e) (parentNode e)
            (f (classList e)) (style e) (texts e).

Definition with_style (f : Style → Style) (e : Element) : Element :=
  mkElement (localName e) (idAttr e) (hrefAttr e) (parentNode e)
            (classList e) (f (style e)) (texts e).

Definition with_texts (f : list string → list string) (e : Element) : Element :=
  mkElement (localName e) (idAttr e) (hrefAttr e) (parentNode e)
            (classList e) (style e) (f (texts e)).

Definition set_animation (v : string) (s : Style) : Style :=
  mkStyle v (boxShadow s).

Definition set_boxShadow (v : string) (s : Style) : Style :=
  mkStyle (animation s) v.

(** ** Selectors: the fragment of CSS the script uses *)

Inductive Selector :=
| SelClass (c : string)                 (* .c *)
| SelType (t : string)                  (* t *)
| SelClassHref (c v : string)           (* .c[href="v"] *)
| SelDescendant (anc sub : Selector).   (* anc sub *)

(** The chain of proper ancestors of node [n], nearest first. *)
Fixpoint ancestors (d : Document) (fuel : nat) (n : nat) : list nat :=
  match fuel with
  | O => []
  | S fuel' =>
      match d !! n ≫= parentNode with
      | Some p => p :: ancestors d fuel' p
      | None => []
      end
  end.

Fixpoint matches (d : Document) (s : Selector) (n : nat) : bool :=
  match s with
  | SelClass c =>
      match d !! n with
      | Some e => TokenList.contains c (classList e)
      | None => false
      end
  | SelType t =>
      match d !! n with
      | Some e => bool_decide (localName e = t)
      | None => false
      end
  | SelClassHref c v =>
      match d !! n with
      | Some e => TokenList.contains c (classList e) && bool_decide (hrefAttr e = Some v)
      | None => false
      end
  | SelDescendant anc sub =>
      matches d sub n && existsb (matches d anc) (ancestors d (length d) n)
  end.

(** [querySelectorAll]: the matching elements in tree order. *)
Definition querySelectorAll (s : Selector) (d : Document) : list nat :=
  List.filter (matches d s) (seq 0 (length d)).

(** [querySelector]: the first match, or [null]. *)
Definition querySelector (s : Selector) (d : Document) : option nat :=
  head (querySelectorAll s d).

(** [getElementById]: the first element in tree order with that id. *)
Definition getElementById (i : string) (d : Document) : option nat :=
  head (List.filter (λ n, bool_decide (d !! n ≫= idAttr = Some i)) (seq 0 (length d))).

(** ** Text: [textContent] and [innerHTML] are derived *)

(** The element children of node [n], in tree order. *)
Definition children (d : Document) (n : nat) : list nat :=
  List.filter (λ m, bool_decide (d !! m ≫= parentNode = Some n)) (seq 0 (length d)).

(** The texts [ts] of an element with the texts [cs] of its element
    children in between. *)
Fixpoint interleave (ts cs : list string) : string :=
  match ts with
  | [] => String.concat "" cs
  | t :: ts' =>
      t +:+ match cs with
            | [] => String.concat "" ts'
            | c :: cs' => c +:+ interleave ts' cs'
            end
  end.

(** [textContent]: the data of every Text descendant, in tree order. *)
Fixpoint textContent_of (d : Document) (fuel n : nat) : string :=
  match fuel with
  | O => ""
  | S fuel' =>
      match d !! n with
      | Some e => interleave (texts e) (map (textContent_of d fuel') (children d n))
      | None => ""
      end
  end.

(** The markup of Text children: each is serialised in turn. *)
Definition serialize_texts (ts : list string) : string :=
  fold_right (λ t s, Html.escape t +:+ s) "" ts.

(** What the [innerHTML] getter returns for an element whose children are
    text. *)
Definition innerHTML_of (e : Element) : string := serialize_texts (texts e).

(** ** The page: document, listener table, function objects, visible effects *)

Inductive Target :=
| Window
| Node (n : nat).

(** The function expressions of the script, by the place they are written. *)
Inductive Code :=
| MobileBtnClick        (* lines 49-61 *)
| NavLinkClick          (* lines 82-89 *)
| MobileNavLinkClick    (* lines 97-108 *)
| DeliveryBtnClick      (* lines 120-123 *)
| HeroMouseMove         (* lines 137-144 *)
| HeroMouseLeave        (* lines 147-149 *)
| WindowResize          (* lines 173-180 *)
| FranchiseBtnClick     (* lines 190-193 *)
| EmptyFunction         (* line 206: function() {} *)
| DOMContentLoaded.     (* lines 223-237 *)

(** A function object: evaluating a function expression allocates a new
    object, told apart from every other by [fn_id].  [next_fn] of the page
    counts the objects allocated so far. *)
Record FnObj := mkFn { fn_id : nat; fn_code : Code }.

Record Listener := mkListener {
  l_target : Target;
  l_type : string;
  l_fn : FnObj
}.

Inductive Effect :=
| Alert (msg : string)
| ConsoleLog (msg : string)
| PreventDefault
| StopPropagation.

Record Page := mkPage {
  dom : Document;
  listeners : list Listener;
  next_fn : nat;
  effects : list Effect
}.

#[global] Instance Target_eq_dec : EqDecision Target.
Proof. solve_decision. Defined.
#[global] Instance Code_eq_dec : EqDecision Code.
Proof. solve_decision. Defined.
#[global] Instance FnObj_eq_dec : EqDecision FnObj.
Proof. solve_decision. Defined.
#[global] Instance Listener_eq_dec : EqDecision Listener.
Proof. solve_decision. Defined.

Definition with_dom (f : Document → Document) (p : Page) : Page :=
  mkPage (f (dom p)) (listeners p) (next_fn p) (effects p).

Definition with_listeners (f : list Listener → list Listener) (p : Page) : Page :=
  mkPage (dom p) (f (listeners p)) (next_fn p) (effects p).

(** What the script reads from the browser while it is evaluated. *)
Record Browser := mkBrowser {
  hover_matches : bool;      (* window.matchMedia('(hover: hover)').matches *)
  has_ontouchstart : bool;   (* 'ontouchstart' in window *)
  currentYear : Z            (* new Date().getFullYear() *)
}.

(** What a handler reads from the event and the window when it is called. *)
Record Ev := mkEv {
  innerWidth : Z;
  innerHeight : Z;
  clientX : Z;
  clientY : Z
}.

(** ** Evaluation: state passing with abrupt completion *)

Inductive Completion (A : Type) :=
| Normal (a : A)
| TypeError.
Arguments Normal {A} a.
Arguments TypeError {A}.

Definition JS (A : Type) : Type := Page → Completion A * Page.

Definition ret {A} (a : A) : JS A := λ p, (Normal a, p).

Definition throw {A} : JS A := λ p, (TypeError, p).

Definition bind {A B} (m : JS A) (k : A → JS B) : JS B :=
  λ p, match m p with
       | (Normal a, p') => k a p'
       | (TypeError, p') => (TypeError, p')
       end.

Declare Scope js_scope.
Delimit Scope js_scope with js.
Notation "'let*' x := m 'in' k" := (bind m (λ x, k))
  (at level 10, x name, m at level 100, k at level 200, only parsing) : js_scope.
Notation "m ;; k" := (bind m (λ _, k))
  (at level 100, k at level 200, right associativity, only parsing) : js_scope.
Local Open Scope js_scope.

(** NodeList.prototype.forEach / Array.prototype.forEach. *)
Fixpoint forEach {A} (l : list A) (f : A → JS unit) : JS unit :=
  match l with
  | [] => ret tt
  | x :: l' => f x ;; forEach l' f
  end.

Definition emit (x : Effect) : JS unit :=
  λ p, (Normal tt, mkPage (dom p) (listeners p) (next_fn p) (effects p ++ [x])).

(** Reading a property of [o]: [TypeError] when [o] is [null] (or refers to
    no element of the document, which [cache_ok] rules out). *)
Definition get {A} (o : option nat) (f : Element → A) : JS A :=
  λ p, match o ≫= (λ n, dom p !! n) with
       | Some e => (Normal (f e), p)
       | None => (TypeError, p)
       end.

(** Changing the object [o]: [TypeError] when [o] is [null] (or refers to no
    element of the document). *)
Definition update (o : option nat) (f : Element → Element) : JS unit :=
  λ p, match o with
       | Some n =>
           match dom p !! n with
           | Some _ => (Normal tt, with_dom (alter f n) p)
           | None => (TypeError, p)
           end
       | None => (TypeError, p)
       end.

Definition classList_contains (o : option nat) (tok : string) : JS bool :=
  get o (λ e, TokenList.contains tok (classList e)).

Definition classList_add (o : option nat) (tok : string) : JS unit :=
  update o (with_classList (TokenList.add tok)).

Definition classList_remove (o : option nat) (tok : string) : JS unit :=
  update o (with_classList (TokenList.remove tok)).

Definition classList_toggle (o : option nat) (tok : string) : JS bool :=
  let* present := classList_contains o tok in
  update o (with_classList (λ l, snd (TokenList.toggle tok l))) ;;
  ret (negb present).

Definition style_set_animation (o : option nat) (v : string) : JS unit :=
  update o (with_style (set_animation v)).

Definition style_set_boxShadow (o : option nat) (v : string) : JS unit :=
  update o (with_style (set_boxShadow v)).

(** A function expression is evaluated: a new function object. *)
Definition new_function (c : Code) : JS FnObj :=
  λ p, (Normal (mkFn (next_fn p) c),
        mkPage (dom p) (listeners p) (S (next_fn p)) (effects p)).

(** An arrow function that is evaluated to be called, not registered (the
    callbacks of [forEach], lines 72, 81, 96 and 119): a new function object
    all the same. *)
Definition arrow_function : JS unit :=
  λ p, (Normal tt, mkPage (dom p) (listeners p) (S (next_fn p)) (effects p)).

(** The [textContent] getter. *)
Definition textContent (o : option nat) : JS string :=
  λ p, match o with
       | Some n =>
           match dom p !! n with
           | Some _ => (Normal (textContent_of (dom p) (length (dom p)) n), p)
           | None => (TypeError, p)
           end
       | None => (TypeError, p)
       end.

(** The [innerHTML] getter and setter, on an element whose children are
    text: the setter parses the string and puts the one Text node it yields
    in the place of the children. *)
Definition innerHTML (o : option nat) : JS string := get o innerHTML_of.

Definition set_innerHTML (o : option nat) (s : string) : JS unit :=
  update o (with_texts (λ _, [Html.parse_text s])).

(** [addEventListener]: appended to the target's listener list unless the
    same callback is already registered there for that type. *)
Definition addEventListener (o : option Target) (ty : string) (f : FnObj) : JS unit :=
  match o with
  | Some t =>
      λ p, let l := mkListener t ty f in
           (Normal tt,
            if bool_decide (l ∈ listeners p) then p
            else with_listeners (λ ls, ls ++ [l]) p)
  | None => throw
  end.

(** [removeEventListener]: removes the listener with this very callback. *)
Definition removeEventListener (o : option Target) (ty : string) (f : FnObj) : JS unit :=
  match o with
  | Some t =>
      λ p, (Normal tt, with_listeners (filter (λ l, l ≠ mkListener t ty f)) p)
  | None => throw
  end.

(** [document.querySelector], evaluated on the document as it is now. *)
Definition document_querySelector (s : Selector) : JS (option nat) :=
  λ p, (Normal (querySelector s (dom p)), p).

Definition element (o : option nat) : option Target := Node <$> o.

(** [this] used as an element. *)
Definition this_element (t : Target) : option nat :=
  match t with
  | Node n => Some n
  | Window => None
  end.

(** ** String.prototype.trim *)

Module Trim.

Definition bytes (l : list nat) : string :=
  string_of_list_ascii (map ascii_of_nat l).

(** WhiteSpace and LineTerminator code points, UTF-8 encoded:
    TAB LF VT FF CR SP, U+00A0, U+1680, U+2000..U+200A, U+2028, U+2029,
    U+202F, U+205F, U+3000, U+FEFF. *)
Definition white_space : list string :=
  map bytes
    [ [9]; [10]; [11]; [12]; [13]; [32]; [194; 160]; [225; 154; 128];
      [226; 128; 128]; [226; 128; 129]; [226; 128; 130]; [226; 128; 131];
      [226; 128; 132]; [226; 128; 133]; [226; 128; 134]; [226; 128; 135];
      [226; 128; 136]; [226; 128; 137]; [226; 128; 138];
      [226; 128; 168]; [226; 128; 169]; [226; 128; 175];
      [226; 129; 159]; [227; 128; 128]; [239; 187; 191] ].

Fixpoint strip (ws : list string) (fuel : nat) (s : string) : string :=
  match fuel with
  | O => s
  | S fuel' =>
      match List.find (λ w, String.prefix w s) ws with
      | Some w => strip ws fuel' (Str.drop (String.length w) s)
      | None => s
      end
  end.

Definition trimStart (s : string) : string :=
  strip white_space (String.length s) s.

Definition trimEnd (s : string) : string :=
  String.rev (strip (map String.rev white_space) (String.length s) (String.rev s)).

Definition trim (s : string) : string := trimEnd (trimStart s).

End Trim.

(** ** The script *)

(** The element cache of lines 31-38: the variables every handler closes
    over. *)
Record Scope := mkScope {
  mobileBtn : option nat;
  mobileMenu : option nat;
  navLinks : list nat;
  mobileNavLinks : list nat;
  deliveryBtns : list nat;
  heroDiv : option nat;
  footerYearSpan : option nat;
  franchiseBtn : option nat
}.

Definition cache (d : Document) : Scope :=
  {| mobileBtn := getElementById "mobileMenuBtn" d;
     mobileMenu := getElementById "mobileMenu" d;
     navLinks := querySelectorAll (SelClass "nav-link") d;
     mobileNavLinks := querySelectorAll (SelDescendant (SelClass "mobile-menu") (SelType "a")) d;
     deliveryBtns := querySelectorAll (SelClass "delivery-btn") d;
     heroDiv := querySelector (SelClass "hero-food-img") d;
     footerYearSpan := querySelector (SelDescendant (SelType "footer") (SelType "p")) d;
     franchiseBtn := querySelector (SelClass "franchise-btn") d |}.

(** JS truthiness of an object reference. *)
Definition truthy {A} (o : option A) : bool :=
  match o with Some _ => true | None => false end.

Definition delivery_message : string :=
  "🍕 POPPER POI — order received! (demo) your street feast is on the way.".

Definition franchise_message : string :=
  "📧 Franchise inquiry: franchise@popperpoi.com"
  +:+ String "010"%char "We will send you the deck within 24 hrs!".

Definition initialized_message : string :=
  "🍽️ Popper Poi website initialized - ready to serve!".

Definition fadeIn : string := "fadeIn 0.25s ease".

Definition leave_shadow : string :=
  "12px 12px 0 #2c2c2c, 16px 16px 20px rgba(0,0,0,0.3)".

Definition touch_shadow : string :=
  "8px 8px 0 #2c2c2c, 12px 12px 20px rgba(0,0,0,0.2)".

Definition md_breakpoint : Z := 768.

Section Handlers.

(** [offset_text c w]: the text of [${8 + (c / w) * 10}], which the engine
    computes in binary64 arithmetic and prints with Number::toString. *)
Variable offset_text : Z → Z → string.

Variable sc : Scope.

(** Lines 49-61. *)
Definition on_mobileBtn_click : JS unit :=
  emit StopPropagation ;;
  classList_toggle (mobileMenu sc) "hidden" ;;
  let* hidden := classList_contains (mobileMenu sc) "hidden" in
  if negb hidden
  then style_set_animation (mobileMenu sc) fadeIn
  else style_set_animation (mobileMenu sc) "".

(** Lines 71-75. *)
Definition removeActiveClass : JS unit :=
  arrow_function ;;
  forEach (navLinks sc) (λ link, classList_remove (Some link) "active-nav").

(** Lines 82-89. *)
Definition on_navLink_click (this : Target) : JS unit :=
  emit PreventDefault ;;
  removeActiveClass ;;
  classList_add (this_element this) "active-nav".

(** Lines 97-108. *)
Definition on_mobileNavLink_click (this : Target) : JS unit :=
  emit PreventDefault ;;
  (if truthy (mobileMenu sc)
   then classList_add (mobileMenu sc) "hidden" ;;
        style_set_animation (mobileMenu sc) ""
   else ret tt) ;;
  let* text := textContent (this_element this) in
  emit (ConsoleLog ("Mobile nav clicked: " +:+ Trim.trim text)).

(** Lines 120-123. *)
Definition on_deliveryBtn_click : JS unit :=
  emit PreventDefault ;;
  emit (Alert delivery_message).

(** Lines 137-144. *)
Definition on_hero_mousemove (this : Target) (e : Ev) : JS unit :=
  style_set_boxShadow (this_element this)
    (offset_text (clientX e) (innerWidth e) +:+ "px "
     +:+ offset_text (clientY e) (innerHeight e)
     +:+ "px 0 #2c2c2c, 16px 16px 20px rgba(0,0,0,0.3)").

(** Lines 147-149. *)
Definition on_hero_mouseleave (this : Target) : JS unit :=
  style_set_boxShadow (this_element this) leave_shadow.

(** [mobileMenu && !mobileMenu.classList.contains('hidden')]. *)
Definition menu_shown : JS bool :=
  if truthy (mobileMenu sc)
  then let* hidden := classList_contains (mobileMenu sc) "hidden" in
       ret (negb hidden)
  else ret false.

(** Lines 173-180. *)
Definition on_resize (e : Ev) : JS unit :=
  if (md_breakpoint <=? innerWidth e)%Z
  then let* shown := menu_shown in
       if shown
       then classList_add (mobileMenu sc) "hidden" ;;
            style_set_animation (mobileMenu sc) ""
       else ret tt
  else ret tt.

(** Lines 190-193. *)
Definition on_franchiseBtn_click : JS unit :=
  emit PreventDefault ;;
  emit (Alert franchise_message).

(** Lines 225-227. *)
Definition ensure_menu_hidden : JS unit :=
  let* shown := menu_shown in
  if shown then classList_add (mobileMenu sc) "hidden" else ret tt.

(** Lines 230-234. *)
Definition set_home_active : JS unit :=
  let* homeLink := document_querySelector (SelClassHref "nav-link" "#") in
  if truthy homeLink
  then removeActiveClass ;;
       classList_add homeLink "active-nav"
  else ret tt.

(** Lines 223-237. *)
Definition on_DOMContentLoaded : JS unit :=
  ensure_menu_hidden ;;
  set_home_active ;;
  emit (ConsoleLog initialized_message).

(** Calling a function object with [this] and the event. *)
Definition call (c : Code) (this : Target) (e : Ev) : JS unit :=
  match c with
  | MobileBtnClick => on_mobileBtn_click
  | NavLinkClick => on_navLink_click this
  | MobileNavLinkClick => on_mobileNavLink_click this
  | DeliveryBtnClick => on_deliveryBtn_click
  | HeroMouseMove => on_hero_mousemove this e
  | HeroMouseLeave => on_hero_mouseleave this
  | WindowResize => on_resize e
  | FranchiseBtnClick => on_franchiseBtn_click
  | EmptyFunction => ret tt
  | DOMContentLoaded => on_DOMContentLoaded
  end.

(** Registering a new function object of code [c]. *)
Definition listen (o : option Target) (ty : string) (c : Code) : JS unit :=
  let* f := new_function c in
  addEventListener o ty f.

(** The body of the script, section by section as the source numbers
    them; each is evaluated once. *)

(** 2. Mobile menu toggle, lines 48-62. *)
Definition setup_mobile_menu : JS unit :=
  if truthy (mobileBtn sc) && truthy (mobileMenu sc)
  then listen (element (mobileBtn sc)) "click" MobileBtnClick
  else ret tt.

(** 3. Navigation active state, lines 81-109. *)
Definition setup_navigation : JS unit :=
  arrow_function ;;
  forEach (navLinks sc) (λ link, listen (Some (Node link)) "click" NavLinkClick) ;;
  arrow_function ;;
  forEach (mobileNavLinks sc) (λ link, listen (Some (Node link)) "click" MobileNavLinkClick).

(** 4. Delivery order buttons, lines 119-124. *)
Definition setup_delivery : JS unit :=
  arrow_function ;;
  forEach (deliveryBtns sc) (λ btn, listen (Some (Node btn)) "click" DeliveryBtnClick).

(** 5. Hero image, lines 134-151. *)
Definition setup_hero (b : Browser) : JS unit :=
  if truthy (heroDiv sc)
  then if hover_matches b
       then listen (element (heroDiv sc)) "mousemove" HeroMouseMove ;;
            listen (element (heroDiv sc)) "mouseleave" HeroMouseLeave
       else ret tt
  else ret tt.

(** 6. Copyright year, lines 161-164. *)
Definition setup_year (b : Browser) : JS unit :=
  if truthy (footerYearSpan sc)
  then let currentYear := currentYear b in
       let* html := innerHTML (footerYearSpan sc) in
       set_innerHTML (footerYearSpan sc)
         (Str.replace "2024" (Str.of_number currentYear) html)
  else ret tt.

(** 7. Responsive menu, lines 173-180. *)
Definition setup_resize : JS unit :=
  listen (Some Window) "resize" WindowResize.

(** 8. Franchise button, lines 189-194. *)
Definition setup_franchise : JS unit :=
  if truthy (franchiseBtn sc)
  then listen (element (franchiseBtn sc)) "click" FranchiseBtnClick
  else ret tt.

(** 9. Touch devices, lines 203-213. *)
Definition setup_touch (b : Browser) : JS unit :=
  if has_ontouchstart b
  then (if truthy (heroDiv sc)
        then let* f := new_function EmptyFunction in
             removeEventListener (element (heroDiv sc)) "mousemove" f
        else ret tt) ;;
       (if truthy (heroDiv sc)
        then style_set_boxShadow (heroDiv sc) touch_shadow
        else ret tt)
  else ret tt.

(** 10. Initialization on page load, lines 223-237. *)
Definition setup_init : JS unit :=
  listen (Some Window) "DOMContentLoaded" DOMContentLoaded.

Definition script (b : Browser) : JS unit :=
  setup_mobile_menu ;;
  setup_navigation ;;
  setup_delivery ;;
  setup_hero b ;;
  setup_year b ;;
  setup_resize ;;
  setup_franchise ;;
  setup_touch b ;;
  setup_init.

End Handlers.

(** The page as the parser hands it to the script. *)
Definition initial (d : Document) : Page := mkPage d [] 0 [].

(** Evaluating the script on document [d]. *)
Definition main (b : Browser) (d : Document) : Completion unit * Page :=
  script (cache d) b (initial d).

(** An event reaches a registered listener: its callback runs with [this]
    bound to the listener's target.  A browser dispatch (capture, target,
    bubble) is a sequence of such invocations. *)
Record Invocation := mkInvocation {
  inv_listener : Listener;
  inv_event : Ev
}.

Section Events.

Variable offset_text : Z → Z → string.
Variable sc : Scope.

Definition invoke (i : Invocation) : JS unit :=
  λ p, if bool_decide (inv_listener i ∈ listeners p)
       then call offset_text sc (fn_code (l_fn (inv_listener i)))
                 (l_target (inv_listener i)) (inv_event i) p
       else (Normal tt, p).

(** An exception a listener leaves uncaught is reported by the browser;
    the page keeps the state the listener left. *)
Definition fire (i : Invocation) (p : Page) : Page := snd (invoke i p).

Definition run (evs : list Invocation) (p : Page) : Page :=
  fold_left (λ q i, fire i q) evs p.

End Events.

(** ** Element states named in the properties *)

(** The menu element after one hamburger click. *)
Definition clicked_menu (e : Element) : Element :=
  let e1 := with_classList (λ l, snd (TokenList.toggle "hidden" l)) e in
  with_style
    (set_animation (if negb (TokenList.contains "hidden" (classList e1)) then fadeIn else ""))
    e1.

(** The menu element after [classList.add('hidden')] and
    [style.animation = '']. *)
Definition closed_menu (e : Element) : Element :=
  with_style (set_animation "") (with_classList (TokenList.add "hidden") e).

(** ** Vocabulary of the properties *)

(** A listener without the identity of its function object. *)
Definition view (l : Listener) : Target * string * Code :=
  (l_target l, l_type l, fn_code (l_fn l)).

Definition views (p : Page) : list (Target * string * Code) :=
  map view (listeners p).

(** Every registered function object was allocated before now. *)
Definition fresh (p : Page) : Prop :=
  ∀ l, l ∈ listeners p → fn_id (l_fn l) < next_fn p.

(** [m] relates every page to the page it leaves, also when it throws. *)
Definition preserves (R : relation Page) {A} (m : JS A) : Prop :=
  ∀ p, R p (snd (m p)).

(** Total correctness: from a page in [P], [m] completes normally in [Q]. *)
Definition hoare {A} (P : Page → Prop) (m : JS A) (Q : A → Page → Prop) : Prop :=
  ∀ p, P p → ∃ a q, m p = (Normal a, q) ∧ Q a q.

(** The documents of two pages have the same elements, related by [E]. *)
Definition dom_rel (E : nat → relation Element) : relation Page :=
  λ p q, length (dom q) = length (dom p)
         ∧ ∀ n e e', dom p !! n = Some e → dom q !! n = Some e' → E n e e'.

(** The listener table is left as it is; function objects may have been
    allocated. *)
Definition keeps_listeners : relation Page :=
  λ p q, listeners q = listeners p ∧ next_fn p ≤ next_fn q.

(** Every reference of the scope is an element of a document of [N]
    elements. *)
Record scope_ok (sc : Scope) (N : nat) : Prop := mkScopeOk {
  ok_mobileBtn : ∀ n, mobileBtn sc = Some n → n < N;
  ok_mobileMenu : ∀ n, mobileMenu sc = Some n → n < N;
  ok_navLinks : ∀ n, n ∈ navLinks sc → n < N;
  ok_mobileNavLinks : ∀ n, n ∈ mobileNavLinks sc → n < N;
  ok_deliveryBtns : ∀ n, n ∈ deliveryBtns sc → n < N;
  ok_heroDiv : ∀ n, heroDiv sc = Some n → n < N;
  ok_footerYearSpan : ∀ n, footerYearSpan sc = Some n → n < N;
  ok_franchiseBtn : ∀ n, franchiseBtn sc = Some n → n < N
}.

(** What no part of the script changes in an element: its name, its id and
    href attributes, its place in the tree, and every class token other than
    'hidden' and 'active-nav'. *)
Definition stable (e e' : Element) : Prop :=
  localName e' = localName e
  ∧ idAttr e' = idAttr e
  ∧ hrefAttr e' = hrefAttr e
  ∧ parentNode e' = parentNode e
  ∧ ∀ t, t ≠ "hidden" → t ≠ "active-nav" →
         TokenList.contains t (classList e') = TokenList.contains t (classList e).

(** The Text children are left as they are. *)
Definition same_texts (e e' : Element) : Prop := texts e' = texts e.

(** Elements outside [F] are left as they are. *)
Definition frame (F : list nat) (n : nat) (e e' : Element) : Prop :=
  n ∉ F → e' = e.

(** The menu's visibility and inline animation are left as they are. *)
Definition same_menu_state (e e' : Element) : Prop :=
  TokenList.contains "hidden" (classList e') = TokenList.contains "hidden" (classList e)
  ∧ animation (style e') = animation (style e).

(** On a document of [N] elements [m] completes normally, with a value in
    [Qv]. *)
Definition safe (N : nat) {A} (m : JS A) (Qv : A → Prop) : Prop :=
  hoare (λ p, length (dom p) = N) m (λ a q, length (dom q) = N ∧ Qv a).

Definition all_texts (p : Page) : list (list string) := texts <$> dom p.

(** What the evaluation of the script keeps track of: the registered
    listeners and the text of every element. *)
Definition tracked (vs : list (Target * string * Code)) (hs : list (list string))
  (p : Page) : Prop :=
  fresh p ∧ views p = vs ∧ all_texts p = hs.

(** What the callback of a registered listener relies on: the hamburger
    handler on the menu being there, the handlers that use [this] on being
    registered on an element. *)
Definition well_attached (sc : Scope) (N : nat) (v : Target * string * Code) : Prop :=
  match v with
  | (t, _, MobileBtnClick) => is_Some (mobileMenu sc)
  | (t, _, (NavLinkClick | MobileNavLinkClick | HeroMouseMove | HeroMouseLeave)) =>
      ∃ n, t = Node n ∧ n < N
  | _ => True
  end.

(** The listener a block of the script registers on an element, when the
    element is there. *)
Definition on_element (o : option nat) (ty : string) (c : Code)
  : list (Target * string * Code) :=
  match o with
  | Some n => [(Node n, ty, c)]
  | None => []
  end.

Definition on_each (l : list nat) (ty : string) (c : Code)
  : list (Target * string * Code) :=
  map (λ n, (Node n, ty, c)) l.

(** The listeners the script registers, in the order it registers them. *)
Definition script_views (sc : Scope) (b : Browser) : list (Target * string * Code) :=
  (if truthy (mobileMenu sc) then on_element (mobileBtn sc) "click" MobileBtnClick else [])
  ++ (on_each (navLinks sc) "click" NavLinkClick
      ++ on_each (mobileNavLinks sc) "click" MobileNavLinkClick)
  ++ on_each (deliveryBtns sc) "click" DeliveryBtnClick
  ++ (if hover_matches b
      then on_element (heroDiv sc) "mousemove" HeroMouseMove
           ++ on_element (heroDiv sc) "mouseleave" HeroMouseLeave
      else [])
  ++ [(Window, "resize", WindowResize)]
  ++ on_element (franchiseBtn sc) "click" FranchiseBtnClick
  ++ [(Window, "DOMContentLoaded", DOMContentLoaded)].

(** The Text children of the footer paragraph after line 163: the one Text
    node parsed from the paragraph's markup with the year put in. *)
Definition patched_texts (b : Browser) (ts : list string) : list string :=
  [Html.parse_text
     (Str.replace "2024" (Str.of_number (currentYear b)) (serialize_texts ts))].

(** The text of the elements after the copyright year was patched. *)
Definition year_texts (sc : Scope) (b : Browser) (hs : list (list string))
  : list (list string) :=
  match footerYearSpan sc with
  | Some f => alter (patched_texts b) f hs
  | None => hs
  end.

(** The page once the script has been evaluated. *)
Definition loaded (b : Browser) (d : Document) : Page := snd (main b d).

(** The pages the browser can be in afterwards: any sequence of events may
    have reached the registered listeners. *)
Definition reachable (offset_text : Z → Z → string) (b : Browser) (d : Document)
  (p : Page) : Prop :=
  ∃ evs, p = run offset_text (cache d) evs (loaded b d).

(** The same browser, with or without touch support. *)
Definition with_touch (t : bool) (b : Browser) : Browser :=
  mkBrowser (hover_matches b) t (currentYear b).

(** The nav links that carry 'active-nav'. *)
Definition is_active (d : Document) (n : nat) : bool :=
  match d !! n with
  | Some e => TokenList.contains "active-nav" (classList e)
  | None => false
  end.

Definition active_links (sc : Scope) (p : Page) : list nat :=
  List.filter (is_active (dom p)) (navLinks sc).

Definition same_active (e e' : Element) : Prop :=
  TokenList.contains "active-nav" (classList e')
  = TokenList.contains "active-nav" (classList e).

(** The ten components the specification lists. *)
Inductive Component :=
| MenuToggle | NavActive | MobileNavClose | DeliveryDemo | HeroShadow
| FooterYear | ResizeClose | FranchiseDemo | TouchSimplify | LoadInit.

#[global] Instance Component_eq_dec : EqDecision Component.
Proof. solve_decision. Defined.

(** The component a function expression of the script belongs to. *)
Definition component_of (c : Code) : Component :=
  match c with
  | MobileBtnClick => MenuToggle
  | NavLinkClick => NavActive
  | MobileNavLinkClick => MobileNavClose
  | DeliveryBtnClick => DeliveryDemo
  | HeroMouseMove | HeroMouseLeave => HeroShadow
  | WindowResize => ResizeClose
  | FranchiseBtnClick => FranchiseDemo
  | EmptyFunction => TouchSimplify
  | DOMContentLoaded => LoadInit
  end.

(** The event types a component has listeners registered for. *)
Definition event_types (k : Component) (p : Page) : list string :=
  remove_dups
    ((λ v, v.1.2) <$> filter (λ v, component_of v.2 = k) (views p)).

(** The elements whose class list or inline style differs between two
    documents. *)
Definition appearance (e : Element) : list string * Style := (classList e, style e).

Definition mutated (d d' : Document) : list nat :=
  filter (λ n, appearance <$> d !! n ≠ appearance <$> d' !! n) (seq 0 (length d)).

(** The elements a handler may change, [this] being the element it is
    registered on. *)
Definition footprint (sc : Scope) (c : Code) (this : Target) : list nat :=
  match c with
  | MobileBtnClick | MobileNavLinkClick | WindowResize => option_list (mobileMenu sc)
  | NavLinkClick => navLinks sc ++ option_list (this_element this)
  | HeroMouseMove | HeroMouseLeave => option_list (this_element this)
  | DeliveryBtnClick | FranchiseBtnClick | EmptyFunction => []
  | DOMContentLoaded => option_list (mobileMenu sc) ++ navLinks sc
  end.

(** The event type the listeners of a component other than the hero shadow
    are registered for. *)
Definition type_of_component (k : Component) : string :=
  match k with
  | ResizeClose => "resize"
  | LoadInit => "DOMContentLoaded"
  | _ => "click"
  end.

(** The menu is never left hidden with an inline animation. *)
Definition menu_settled (e : Element) : Prop :=
  TokenList.contains "hidden" (classList e) = true → animation (style e) = "".

(** ** Example pages *)

Definition plain (name : string) (i : option string) (href : option string)
  (parent : option nat) (classes : list string) (text : string) : Element :=
  mkElement name i href parent classes (mkStyle "" "") [text].

(** A page with every element the script looks for. *)
Definition full_page : Document :=
  [ plain "button" (Some "mobileMenuBtn") None None [] "";
    plain "div" (Some "mobileMenu") None None ["mobile-menu"; "hidden"] "";
    plain "a" None (Some "#") (Some 1) ["nav-link"; "active-nav"] "Home";
    plain "a" None (Some "#menu") (Some 1) ["nav-link"] "Menu";
    plain "div" None None None ["hero-food-img"] "";
    plain "footer" None None None [] "";
    plain "p" None None (Some 5) [] "(c) 2024 Popper Poi, est. 2024";
    plain "button" None None None ["delivery-btn"] "Order";
    plain "button" None None None ["franchise-btn"] "Franchise" ].

(** Two nav links marked active in the markup, none of them the home link. *)
Definition two_active_no_home : Document :=
  [ plain "a" None (Some "#menu") None ["nav-link"; "active-nav"] "Menu";
    plain "a" None (Some "#about") None ["nav-link"; "active-nav"] "About" ].

(** The hamburger button and a menu the markup leaves shown. *)
Definition menu_shown_page : Document :=
  [ plain "button" (Some "mobileMenuBtn") None None [] "";
    plain "div" (Some "mobileMenu") None None ["mobile-menu"] "" ].

(** The hamburger button and a menu the markup hides. *)
Definition menu_hidden_page : Document :=
  [ plain "button" (Some "mobileMenuBtn") None None [] "";
    plain "div" (Some "mobileMenu") None None ["mobile-menu"; "hidden"] "" ].

(** A footer that names the year 2024. *)
Definition footer_page : Document :=
  [ plain "footer" None None None [] "";
    plain "p" None None (Some 0) [] "(c) 2024 Popper Poi" ].

Definition desktop : Browser := mkBrowser true false 2026.

Definition resize_to (w : Z) : Ev := mkEv w 600 0 0.

Definition hamburger_listener : Listener :=
  mkListener (Node 0) "click" (mkFn 0 MobileBtnClick).

Definition load_listener : Listener :=
  mkListener Window "DOMContentLoaded" (mkFn 5 DOMContentLoaded).

(** An [offset_text] for the examples: the engine's result whenever the
    offset is a whole number (truncated otherwise). *)
Definition whole_offset_text (c w : Z) : string :=
  Str.of_number (8 + c * 10 / w).

Definition nav_listener : Listener :=
  mkListener (Node 3) "click" (mkFn 3 NavLinkClick).

Definition delivery_listener : Listener :=
  mkListener (Node 7) "click" (mkFn 8 DeliveryBtnClick).

(** ** Vocabulary of the further properties *)

(** The messages of the dialogs shown so far, oldest first. *)
Definition alerts (p : Page) : list string :=
  flat_map (λ x, match x with Alert msg => [msg] | _ => [] end) (effects p).

Definition same_alerts : relation Page := λ p q, alerts q = alerts p.

(** The dialog a call of a function of code [c] shows. *)
Definition alert_of (c : Code) : list string :=
  match c with
  | DeliveryBtnClick => [delivery_message]
  | FranchiseBtnClick => [franchise_message]
  | _ => []
  end.

(** The dialogs an invocation shows on page [p]: those of its callback when
    its listener is registered, none otherwise. *)
Definition alerts_of_invocation (p : Page) (i : Invocation) : list string :=
  if bool_decide (inv_listener i ∈ listeners p)
  then alert_of (fn_code (l_fn (inv_listener i)))
  else [].

(** The document the script leaves: the footer paragraph's text with the
    year patched, and, on a touch device, the hero image's shadow
    simplified. *)
Definition year_dom (sc : Scope) (b : Browser) (d : Document) : Document :=
  match footerYearSpan sc with
  | Some f => alter (with_texts (patched_texts b)) f d
  | None => d
  end.

Definition touch_dom (sc : Scope) (b : Browser) (d : Document) : Document :=
  if has_ontouchstart b
  then match heroDiv sc with
       | Some h => alter (with_style (set_boxShadow touch_shadow)) h d
       | None => d
       end
  else d.

Definition script_dom (sc : Scope) (b : Browser) (d : Document) : Document :=
  touch_dom sc b (year_dom sc b d).

(** No nav link lies inside the footer paragraph, whose children line 163
    replaces. *)
Definition nav_links_outside_footer (d : Document) : Prop :=
  ∀ f, footerYearSpan (cache d) = Some f →
       Forall (λ n, f ∉ ancestors d (length d) n) (navLinks (cache d)).

(** The footer paragraph [f] has one Text child, with data [t], and no
    element child. *)
Definition footer_text (d : Document) (f : nat) (t : string) : Prop :=
  texts <$> d !! f = Some [t] ∧ children d f = [].


(** The footer paragraph has no element child: its children are text. *)
Definition footer_text_only (d : Document) : Prop :=
  ∀ f, footerYearSpan (cache d) = Some f → children d f = [].

(** On a document of [N] elements [m] completes normally and changes the
    document by [f]. *)
Definition dom_fn (N : nat) (f : Document → Document) (m : JS unit) : Prop :=
  ∀ p, length (dom p) = N →
       ∃ q, m p = (Normal tt, q) ∧ dom q = f (dom p) ∧ length (dom q) = N.

(** Nothing the script looks for is in the document. *)
Definition nothing_found (sc : Scope) : Prop :=
  mobileBtn sc = None ∧ mobileMenu sc = None ∧ navLinks sc = []
  ∧ mobileNavLinks sc = [] ∧ deliveryBtns sc = [] ∧ heroDiv sc = None
  ∧ footerYearSpan sc = None ∧ franchiseBtn sc = None.

(** The element at position [n] after a click on the nav link [link]. *)
Definition nav_clicked (sc : Scope) (link n : nat) (e : Element) : Element :=
  if decide (n = link)
  then with_classList
         (λ l, TokenList.add "active-nav" (TokenList.remove "active-nav" l)) e
  else if decide (n ∈ navLinks sc)
       then with_classList (TokenList.remove "active-nav") e
       else e.

(** No invocation of the sequence calls the load handler. *)
Definition load_free (evs : list Invocation) : Prop :=
  Forall (λ i, fn_code (l_fn (inv_listener i)) ≠ DOMContentLoaded) evs.

(** ** Vocabulary of reversibility *)














(** The shadow the mousemove handler assigns for the event [e]
    (line 142). *)
Definition move_shadow (offset_text : Z → Z → string) (e : Ev) : string :=
  offset_text (clientX e) (innerWidth e) +:+ "px "
  +:+ offset_text (clientY e) (innerHeight e)
  +:+ "px 0 #2c2c2c, 16px 16px 20px rgba(0,0,0,0.3)".


(** Once set, the box shadow is never empty again. *)
Definition shadow_kept (e e' : Element) : Prop :=
  boxShadow (style e) ≠ "" → boxShadow (style e') ≠ "".

(** A hidden element stays hidden. *)
Definition hidden_kept (e e' : Element) : Prop :=
  TokenList.contains "hidden" (classList e) = true →
  TokenList.contains "hidden" (classList e') = true.

(** The first class token stays 'mobile-menu'. *)
Definition head_kept (e e' : Element) : Prop :=
  head (classList e) = Some "mobile-menu" → head (classList e') = Some "mobile-menu".


(** * Properties *)

(** ** Class token lists *)

Lemma contains_true tok l : TokenList.contains tok l = true ↔ tok ∈ l.
Proof. unfold TokenList.contains. apply bool_decide_eq_true. Qed.

Lemma contains_add tok t l :
  TokenList.contains t (TokenList.add tok l)
  = bool_decide (t = tok) || TokenList.contains t l.
Proof.
  unfold TokenList.add. destruct (TokenList.contains tok l) eqn:Hc.
  - case_bool_decide; subst; simpl; congruence.
  - apply eq_true_iff_eq.
    rewrite orb_true_iff, !contains_true, bool_decide_eq_true,
      elem_of_app, list_elem_of_singleton.
    tauto.
Qed.

Lemma contains_add_ne tok t l :
  t ≠ tok → TokenList.contains t (TokenList.add tok l) = TokenList.contains t l.
Proof. intros. rewrite contains_add. by rewrite bool_decide_eq_false_2. Qed.

Lemma contains_add_eq tok l : TokenList.contains tok (TokenList.add tok l) = true.
Proof. rewrite contains_add. by rewrite bool_decide_eq_true_2. Qed.

Lemma contains_remove tok t l :
  TokenList.contains t (TokenList.remove tok l)
  = negb (bool_decide (t = tok)) && TokenList.contains t l.
Proof.
  apply eq_true_iff_eq.
  rewrite andb_true_iff, negb_true_iff, !contains_true, bool_decide_eq_false.
  unfold TokenList.remove. rewrite list_elem_of_filter. tauto.
Qed.

Lemma contains_remove_eq tok l : TokenList.contains tok (TokenList.remove tok l) = false.
Proof. rewrite contains_remove. by rewrite bool_decide_eq_true_2. Qed.

Lemma contains_remove_ne tok t l :
  t ≠ tok → TokenList.contains t (TokenList.remove tok l) = TokenList.contains t l.
Proof. intros. rewrite contains_remove. by rewrite bool_decide_eq_false_2. Qed.

Lemma add_present tok l : TokenList.contains tok l = true → TokenList.add tok l = l.
Proof. unfold TokenList.add. by intros ->. Qed.

Lemma contains_toggle tok t l :
  TokenList.contains t (snd (TokenList.toggle tok l))
  = if bool_decide (t = tok) then negb (TokenList.contains tok l)
    else TokenList.contains t l.
Proof.
  unfold TokenList.toggle. destruct (TokenList.contains tok l) eqn:Hc; simpl.
  - rewrite contains_remove. case_bool_decide; subst; simpl; done.
  - rewrite contains_add. case_bool_decide; subst; simpl; congruence.
Qed.

(** ** Reading and changing an element *)

Lemma alter_at {A} (f : A → A) n (l : list A) x :
  l !! n = Some x → alter f n l = <[n := f x]> l.
Proof.
  intros H. apply list_eq. intros i. destruct (decide (i = n)) as [->|Hne].
  - rewrite list_lookup_alter_eq, H. simpl.
    rewrite list_lookup_insert_eq; [done|]. by eapply lookup_lt_Some.
  - rewrite list_lookup_alter_ne, list_lookup_insert_ne by done. done.
Qed.

Lemma get_at {A} n (f : Element → A) p e :
  dom p !! n = Some e → get (Some n) f p = (Normal (f e), p).
Proof. unfold get. simpl. by intros ->. Qed.

Lemma update_at n f p e :
  dom p !! n = Some e →
  update (Some n) f p
  = (Normal tt, mkPage (<[n := f e]> (dom p)) (listeners p) (next_fn p) (effects p)).
Proof.
  intros H. unfold update, with_dom. rewrite H. by rewrite (alter_at _ _ _ _ H).
Qed.

Lemma lookup_insert_same {A} n (x y : A) (l : list A) :
  l !! n = Some y → <[n := x]> l !! n = Some x.
Proof. intros H. apply list_lookup_insert_eq. by eapply lookup_lt_Some. Qed.

(** ** Running code step by step *)

Lemma run_bind {A B} (m : JS A) (k : A → JS B) p a q r :
  m p = (Normal a, q) → k a q = r → bind m k p = r.
Proof. unfold bind. by intros -> <-. Qed.

Lemma run_emit x p :
  emit x p = (Normal tt, mkPage (dom p) (listeners p) (next_fn p) (effects p ++ [x])).
Proof. done. Qed.

Lemma run_ret {A} (a : A) p : ret a p = (Normal a, p).
Proof. done. Qed.

Ltac js_lookup :=
  cbn [dom listeners next_fn effects];
  first [ eassumption
        | eapply lookup_insert_same; js_lookup ].

(** Solves [m p = (Normal ?a, ?q)] for straight-line [m]. *)
Ltac js_prim :=
  lazymatch goal with
  | |- bind _ _ _ = _ => eapply run_bind; [ js_prim | cbv beta; js_prim ]
  | |- emit _ _ = _ => apply run_emit
  | |- ret _ _ = _ => apply run_ret
  | |- get (Some _) _ _ = _ => eapply get_at; js_lookup
  | |- update (Some _) _ _ = _ => eapply update_at; js_lookup
  end.

Lemma bind_normal {A B} (m : JS A) (k : A → JS B) p a q :
  m p = (Normal a, q) → bind m k p = k a q.
Proof. intros. by eapply run_bind. Qed.

(** Runs the leading straight-line steps of the code in the goal. *)
Ltac js_run :=
  repeat (erewrite bind_normal by js_prim; cbv beta);
  cbn [dom listeners next_fn effects].

(** ** The hamburger button *)

Lemma on_mobileBtn_click_spec sc p m e :
  mobileMenu sc = Some m → dom p !! m = Some e →
  on_mobileBtn_click sc p
  = (Normal tt,
     mkPage (<[m := clicked_menu e]> (dom p)) (listeners p) (next_fn p)
            (effects p ++ [StopPropagation])).
Proof.
  intros Hm He. unfold on_mobileBtn_click, classList_toggle, classList_contains,
    style_set_animation. rewrite Hm.
  js_run.
  unfold clicked_menu. cbv zeta.
  destruct (negb _); (erewrite update_at by js_lookup);
    cbn [dom listeners next_fn effects]; by rewrite list_insert_insert_eq.
Qed.

Lemma clicked_menu_contains t e :
  TokenList.contains t (classList (clicked_menu e))
  = if bool_decide (t = "hidden") then negb (TokenList.contains "hidden" (classList e))
    else TokenList.contains t (classList e).
Proof. unfold clicked_menu. cbn. apply contains_toggle. Qed.

Lemma clicked_menu_animation e :
  animation (style (clicked_menu e))
  = if TokenList.contains "hidden" (classList e) then fadeIn else "".
Proof.
  unfold clicked_menu. cbn. rewrite contains_toggle.
  rewrite bool_decide_eq_true_2 by done. by destruct (TokenList.contains _ _).
Qed.

(** ** Closing the menu *)

Lemma closed_menu_hidden e : TokenList.contains "hidden" (classList (closed_menu e)) = true.
Proof. cbn. apply contains_add_eq. Qed.

Lemma closed_menu_animation e : animation (style (closed_menu e)) = "".
Proof. done. Qed.

Lemma closed_menu_idem e : closed_menu (closed_menu e) = closed_menu e.
Proof.
  unfold closed_menu, with_style, with_classList. cbn.
  by rewrite (add_present _ _ (contains_add_eq "hidden" (classList e))).
Qed.

Lemma dom_textContent_emit o (g : string → Effect) p :
  dom (snd (bind (textContent o) (λ x, emit (g x)) p)) = dom p.
Proof.
  unfold bind, textContent. destruct o as [n|]; [|done]. by destruct (dom p !! n).
Qed.

Lemma on_mobileNavLink_click_dom sc this p m e :
  mobileMenu sc = Some m → dom p !! m = Some e →
  dom (snd (on_mobileNavLink_click sc this p)) = <[m := closed_menu e]> (dom p).
Proof.
  intros Hm He. unfold on_mobileNavLink_click, classList_add, style_set_animation.
  rewrite Hm. cbn [truthy].
  js_run. rewrite dom_textContent_emit. cbn [dom].
  by rewrite list_insert_insert_eq.
Qed.

Lemma on_mobileNavLink_click_no_menu sc this p :
  mobileMenu sc = None →
  dom (snd (on_mobileNavLink_click sc this p)) = dom p.
Proof.
  intros Hm. unfold on_mobileNavLink_click. rewrite Hm. cbn [truthy].
  js_run. by rewrite dom_textContent_emit.
Qed.

Lemma menu_shown_at sc p m e :
  mobileMenu sc = Some m → dom p !! m = Some e →
  menu_shown sc p = (Normal (negb (TokenList.contains "hidden" (classList e))), p).
Proof.
  intros Hm He. unfold menu_shown, classList_contains. rewrite Hm. cbn [truthy].
  js_run. done.
Qed.

Lemma menu_shown_none sc p :
  mobileMenu sc = None → menu_shown sc p = (Normal false, p).
Proof. intros Hm. unfold menu_shown. by rewrite Hm. Qed.

(** The window resize handler, in closed form. *)
Lemma on_resize_spec sc ev p m e :
  mobileMenu sc = Some m → dom p !! m = Some e →
  on_resize sc ev p
  = (Normal tt,
     if (md_breakpoint <=? innerWidth ev)%Z && negb (TokenList.contains "hidden" (classList e))
     then mkPage (<[m := closed_menu e]> (dom p)) (listeners p) (next_fn p) (effects p)
     else p).
Proof.
  intros Hm He. unfold on_resize.
  destruct (md_breakpoint <=? innerWidth ev)%Z; [|done]. cbn [andb].
  eapply run_bind; [by eapply menu_shown_at|]. cbv beta.
  destruct (negb _); [|done].
  unfold classList_add, style_set_animation. rewrite Hm.
  js_run. erewrite update_at by js_lookup. cbn [dom listeners next_fn effects].
  by rewrite list_insert_insert_eq.
Qed.

Lemma on_resize_no_menu sc ev p :
  mobileMenu sc = None → on_resize sc ev p = (Normal tt, p).
Proof.
  intros Hm. unfold on_resize. destruct (_ <=? _)%Z; [|done].
  eapply run_bind; [by apply menu_shown_none|]. done.
Qed.

(** ** The claims about single handlers *)

Lemma clicked_twice_contains t e :
  TokenList.contains t (classList (clicked_menu (clicked_menu e)))
  = TokenList.contains t (classList e).
Proof.
  rewrite !clicked_menu_contains.
  rewrite (bool_decide_eq_true_2 ("hidden" = "hidden")) by done.
  case_bool_decide; subst; [|done]. by rewrite negb_involutive.
Qed.

Lemma clicked_twice_animation e :
  animation (style (clicked_menu (clicked_menu e)))
  = (if TokenList.contains "hidden" (classList e) then "" else fadeIn).
Proof.
  rewrite clicked_menu_animation, clicked_menu_contains.
  rewrite bool_decide_eq_true_2 by done. by destruct (TokenList.contains _ _).
Qed.

Lemma on_mobileBtn_click_twice sc p m e :
  mobileMenu sc = Some m → dom p !! m = Some e →
  dom (snd (on_mobileBtn_click sc (snd (on_mobileBtn_click sc p)))) !! m
  = Some (clicked_menu (clicked_menu e)).
Proof.
  intros Hm He.
  rewrite (on_mobileBtn_click_spec sc p m e Hm He). cbn [snd].
  erewrite on_mobileBtn_click_spec; [|done|cbn [dom]; by eapply lookup_insert_same].
  cbn [snd dom]. js_lookup.
Qed.

(** C2, as the code has it: two hamburger clicks in succession restore the
    membership of every class token of the menu, in particular of 'hidden';
    the inline animation ends as the value that goes with the original
    visibility (empty when hidden, the fade-in when shown), so it is restored
    exactly when it had that value before the first click. *)
Theorem C2_double_toggle sc p m e :
  mobileMenu sc = Some m → dom p !! m = Some e →
  ∃ e2,
    dom (snd (on_mobileBtn_click sc (snd (on_mobileBtn_click sc p)))) !! m = Some e2
    ∧ (∀ t, TokenList.contains t (classList e2) = TokenList.contains t (classList e))
    ∧ animation (style e2)
      = (if TokenList.contains "hidden" (classList e) then "" else fadeIn)
    ∧ (animation (style e2) = animation (style e)
       ↔ animation (style e)
         = (if TokenList.contains "hidden" (classList e) then "" else fadeIn)).
Proof.
  intros Hm He. exists (clicked_menu (clicked_menu e)).
  split; [by apply on_mobileBtn_click_twice|].
  split; [intros t; apply clicked_twice_contains|].
  rewrite clicked_twice_animation. split; [done|]. split; congruence.
Qed.

(** C4, as the code has it: the resize handler closes the menu (adds
    'hidden', clears the inline animation) exactly when the window is at
    least 768 pixels wide and the menu is not already hidden; in every other
    case it leaves the whole page as it was. *)
Theorem C4_resize_closes sc ev p m e :
  mobileMenu sc = Some m → dom p !! m = Some e →
  let q := snd (on_resize sc ev p) in
  ((768 ≤ innerWidth ev)%Z ∧ TokenList.contains "hidden" (classList e) = false
   → dom q = <[m := closed_menu e]> (dom p)
     ∧ TokenList.contains "hidden" (classList (closed_menu e)) = true
     ∧ animation (style (closed_menu e)) = "")
  ∧ (¬ ((768 ≤ innerWidth ev)%Z ∧ TokenList.contains "hidden" (classList e) = false)
     → q = p).
Proof.
  intros Hm He q. subst q. rewrite (on_resize_spec sc ev p m e Hm He). cbn [snd].
  unfold md_breakpoint. split.
  - intros [Hw Hh]. rewrite Hh. cbn [negb].
    rewrite (proj2 (Z.leb_le _ _) Hw). cbn [andb dom].
    split; [done|]. split; [apply closed_menu_hidden|done].
  - intros Hn. destruct (768 <=? innerWidth ev)%Z eqn:Hw; [|done].
    destruct (TokenList.contains "hidden" (classList e)) eqn:Hh; [done|].
    exfalso. apply Hn. split; [by apply Z.leb_le|done].
Qed.

(** C7: whatever state the mobile menu is in, after the mobile nav link
    handler has run the menu carries 'hidden' and its inline animation is the
    empty string; running the handler once more leaves the document as it
    is. *)
Theorem C7_mobile_link_closes sc this p m e :
  mobileMenu sc = Some m → dom p !! m = Some e →
  let q := snd (on_mobileNavLink_click sc this p) in
  (∃ e', dom q !! m = Some e'
         ∧ TokenList.contains "hidden" (classList e') = true
         ∧ animation (style e') = "")
  ∧ dom (snd (on_mobileNavLink_click sc this q)) = dom q.
Proof.
  intros Hm He q. subst q.
  pose proof (on_mobileNavLink_click_dom sc this p m e Hm He) as Hq.
  assert (Hl : dom (snd (on_mobileNavLink_click sc this p)) !! m = Some (closed_menu e)).
  { rewrite Hq. by eapply lookup_insert_same. }
  split.
  - exists (closed_menu e). split; [done|].
    split; [apply closed_menu_hidden|apply closed_menu_animation].
  - rewrite (on_mobileNavLink_click_dom sc this _ m _ Hm Hl).
    rewrite closed_menu_idem. apply list_insert_id. done.
Qed.

(** ** Replacing the first occurrence *)

Lemma app_cons c s t : String c s +:+ t = String c (s +:+ t).
Proof. done. Qed.

Lemma app_nil_l s : "" +:+ s = s.
Proof. done. Qed.

Lemma prefix_app pat s : String.prefix pat s = true ↔ ∃ post, s = pat +:+ post.
Proof.
  revert s. induction pat as [|c pat IH]; intros s.
  - split; [intros _; by exists s|]. by destruct s.
  - destruct s as [|c' s]; cbn [String.prefix].
    + split; [done|]. intros [post Hp]. by rewrite app_cons in Hp.
    + destruct (ascii_dec c c') as [->|Hne].
      * rewrite IH. split; intros [post Hp]; exists post.
        -- by rewrite app_cons, Hp.
        -- rewrite app_cons in Hp. congruence.
      * split; [done|]. intros [post Hp]. rewrite app_cons in Hp. congruence.
Qed.

Lemma drop_app pat post : Str.drop (String.length pat) (pat +:+ post) = post.
Proof. induction pat as [|c pat IH]; [by destruct post|]. by rewrite app_cons. Qed.

Lemma occurs_at_0 pat s : Str.occurs_at pat s 0 ↔ String.prefix pat s = true.
Proof.
  rewrite prefix_app. split.
  - intros (pre & post & -> & Hl). destruct pre; [|done]. by exists post.
  - intros [post ->]. by exists "", post.
Qed.

Lemma occurs_at_S pat c s i :
  Str.occurs_at pat s i → Str.occurs_at pat (String c s) (S i).
Proof.
  intros (pre & post & -> & <-). exists (String c pre), post. done.
Qed.



Lemma length_app_string s t :
  String.length (s +:+ t) = String.length s + String.length t.
Proof. induction s as [|c s IH]; [done|]. rewrite app_cons. cbn. by rewrite IH. Qed.

Lemma app_inv_tail_string s1 s2 t : s1 +:+ t = s2 +:+ t → s1 = s2.
Proof.
  revert s2. induction s1 as [|c s1 IH]; intros [|c' s2] H.
  - done.
  - apply (f_equal String.length) in H.
    rewrite app_nil_l, app_cons in H. cbn in H. rewrite length_app_string in H. lia.
  - apply (f_equal String.length) in H.
    rewrite app_nil_l, app_cons in H. cbn in H. rewrite length_app_string in H. lia.
  - rewrite !app_cons in H. injection H as -> H. f_equal. by apply IH.
Qed.

Lemma replace_self pat s : Str.replace pat pat s = s.
Proof.
  induction s as [|c s IH]; cbn [Str.replace].
  - destruct (String.prefix pat "") eqn:Hp; [|done].
    apply prefix_app in Hp as [post Hp]. rewrite Hp at 2. by rewrite Hp, drop_app.
  - destruct (String.prefix pat (String c s)) eqn:Hp.
    + apply prefix_app in Hp as [post Hp]. rewrite Hp. by rewrite drop_app.
    + by rewrite IH.
Qed.

Lemma replace_changes pat rep s i :
  Str.occurs_at pat s i → rep ≠ pat → Str.replace pat rep s ≠ s.
Proof.
  revert i. induction s as [|c s IH]; intros i Hocc Hne; cbn [Str.replace].
  - destruct (String.prefix pat "") eqn:Hp.
    + apply prefix_app in Hp as [post Hp]. rewrite Hp at 2. rewrite Hp, drop_app.
      intros H. by apply app_inv_tail_string in H.
    + destruct Hocc as (pre & post & Heq & Hlen).
      destruct i; [|by destruct pre].
      assert (Str.occurs_at pat "" 0) as H0 by (by exists pre, post).
      apply occurs_at_0 in H0. congruence.
  - destruct (String.prefix pat (String c s)) eqn:Hp.
    + apply prefix_app in Hp as [post Hp]. rewrite Hp, drop_app.
      intros H. by apply app_inv_tail_string in H.
    + intros [= H]. destruct Hocc as (pre & post & Heq & Hlen).
      destruct pre as [|c' pre].
      * assert (Str.occurs_at pat (String c s) 0) as H0 by (by exists "", post).
        apply occurs_at_0 in H0. congruence.
      * rewrite app_cons in Heq. injection Heq as -> Heq.
        apply (IH (String.length pre)); [by exists pre, post|done|done].
Qed.

Lemma replace_changed_occurs pat rep s :
  Str.replace pat rep s ≠ s → ∃ i, Str.occurs_at pat s i.
Proof.
  induction s as [|c s IH]; cbn [Str.replace].
  - destruct (String.prefix pat "") eqn:Hp; [|done].
    intros _. exists 0. by apply occurs_at_0.
  - destruct (String.prefix pat (String c s)) eqn:Hp.
    + intros _. exists 0. by apply occurs_at_0.
    + intros H. destruct IH as [i Hi]; [congruence|].
      exists (S i). by apply occurs_at_S.
Qed.

(** ** Text, serialised and parsed again *)

Lemma string_ind2 (P : string → Prop) :
  P "" → (∀ c, P (String c "")) →
  (∀ c c' s, P s → P (String c' s) → P (String c (String c' s))) →
  ∀ s, P s.
Proof.
  intros H0 H1 H2 s. enough (P s ∧ ∀ c, P (String c s)) by tauto.
  induction s as [|c' s [IH1 IH2]]; [by split|].
  split; [apply IH2|]. intros c. by apply H2.
Qed.

Lemma special_false c :
  Html.special c = false ↔ c ≠ "&"%char ∧ c ≠ "<"%char ∧ c ≠ ">"%char ∧ c ≠ "194"%char.
Proof.
  unfold Html.special. rewrite !orb_false_iff, !Ascii.eqb_neq. tauto.
Qed.

Lemma escape_plain c s : Html.special c = false → Html.escape (String c s) = String c (Html.escape s).
Proof.
  intros (H1 & H2 & H3 & H4)%special_false. cbn [Html.escape].
  apply Ascii.eqb_neq in H1, H2, H3, H4. rewrite H1, H2, H3, H4.
  by destruct s.
Qed.

Lemma escape_C2 c s :
  c ≠ "160"%char →
  Html.escape (String "194" (String c s)) = String "194" (Html.escape (String c s)).
Proof.
  intros H%Ascii.eqb_neq. cbn [Html.escape]. cbn [Ascii.eqb Bool.eqb andb]. by rewrite H.
Qed.

Lemma escape_C2_end : Html.escape (String "194" "") = String "194" "".
Proof. done. Qed.

(** The first character of serialised text is the text's own first
    character or the '&' of a reference. *)
Lemma escape_head c s :
  ∃ r, Html.escape (String c s) = String c r ∨ Html.escape (String c s) = String "&" r.
Proof.
  destruct (Html.special c) eqn:Hs.
  - unfold Html.special in Hs. rewrite !orb_true_iff, !Ascii.eqb_eq in Hs.
    destruct Hs as [[[->| ->]| ->]| ->]; try (eexists; right; reflexivity).
    destruct s as [|c' s]; [eexists; left; reflexivity|].
    destruct (ascii_dec c' "160") as [->|Hne].
    + eexists. right. reflexivity.
    + eexists. left. by apply escape_C2.
  - eexists. left. by apply escape_plain.
Qed.

Lemma decode_plain c s : c ≠ "&"%char → Html.decode (String c s) = String c (Html.decode s).
Proof. intros H%Ascii.eqb_neq. cbn [Html.decode]. by rewrite H. Qed.

(** Parsing what the serialiser wrote gives the text back. *)
Lemma decode_escape t : Html.decode (Html.escape t) = t.
Proof.
  induction t as [|c|c c' t IH1 IH2] using string_ind2; [done| |].
  - destruct (Html.special c) eqn:Hs.
    + unfold Html.special in Hs. rewrite !orb_true_iff, !Ascii.eqb_eq in Hs.
      by destruct Hs as [[[->| ->]| ->]| ->].
    + rewrite escape_plain by done. apply special_false in Hs as (? & _).
      by rewrite decode_plain.
  - destruct (Html.special c) eqn:Hs.
    + unfold Html.special in Hs. rewrite !orb_true_iff, !Ascii.eqb_eq in Hs.
      destruct Hs as [[[->| ->]| ->]| ->].
      * change (Html.decode (Html.escape _)) with (String "&" (Html.decode (Html.escape (String c' t)))).
        by rewrite IH2.
      * change (Html.decode (Html.escape _)) with (String "<" (Html.decode (Html.escape (String c' t)))).
        by rewrite IH2.
      * change (Html.decode (Html.escape _)) with (String ">" (Html.decode (Html.escape (String c' t)))).
        by rewrite IH2.
      * destruct (ascii_dec c' "160") as [->|Hne].
        -- change (Html.decode (Html.escape _)) with (Html.nbsp +:+ Html.decode (Html.escape t)).
           by rewrite IH1.
        -- rewrite escape_C2 by done. rewrite decode_plain by done. by rewrite IH2.
    + rewrite escape_plain by done. apply special_false in Hs as (? & _).
      rewrite decode_plain by done. by rewrite IH2.
Qed.

Lemma normalize_plain c s :
  c ≠ Html.CR → Html.normalize_newlines (String c s) = String c (Html.normalize_newlines s).
Proof. intros H%Ascii.eqb_neq. cbn [Html.normalize_newlines]. by rewrite H. Qed.

Lemma normalize_CR c s :
  c ≠ Html.LF →
  Html.normalize_newlines (String Html.CR (String c s)) = String Html.LF (Html.normalize_newlines (String c s)).
Proof.
  intros H%Ascii.eqb_neq. change (Html.normalize_newlines (String Html.CR (String c s)))
    with (String Html.LF (if Ascii.eqb c Html.LF then Html.normalize_newlines s
                     else Html.normalize_newlines (String c s))).
  by rewrite H.
Qed.

Lemma normalize_head c s :
  ∃ r, Html.normalize_newlines (String c s) = String c r
       ∨ Html.normalize_newlines (String c s) = String Html.LF r.
Proof.
  destruct (ascii_dec c Html.CR) as [->|Hne].
  - eexists. right. reflexivity.
  - eexists. left. by apply normalize_plain.
Qed.

(** Newline normalisation acts on the text the same way as on its
    serialisation. *)
Lemma normalize_escape t :
  Html.normalize_newlines (Html.escape t) = Html.escape (Html.normalize_newlines t).
Proof.
  induction t as [|c|c c' t IH1 IH2] using string_ind2; [done| |].
  - destruct (Html.special c) eqn:Hs.
    + unfold Html.special in Hs. rewrite !orb_true_iff, !Ascii.eqb_eq in Hs.
      by destruct Hs as [[[->| ->]| ->]| ->].
    + destruct (ascii_dec c Html.CR) as [->|Hne]; [done|].
      rewrite escape_plain by done. rewrite !normalize_plain by done.
      by rewrite escape_plain by done.
  - destruct (Html.special c) eqn:Hs.
    + unfold Html.special in Hs. rewrite !orb_true_iff, !Ascii.eqb_eq in Hs.
      destruct Hs as [[[->| ->]| ->]| ->].
      * change (Html.escape (String "&" ?s)) with ("&amp;" +:+ Html.escape s).
        rewrite !app_cons, app_nil_l. rewrite !normalize_plain by done.
        by rewrite IH2.
      * change (Html.escape (String "<" ?s)) with ("&lt;" +:+ Html.escape s).
        rewrite !app_cons, app_nil_l. rewrite !normalize_plain by done.
        by rewrite IH2.
      * change (Html.escape (String ">" ?s)) with ("&gt;" +:+ Html.escape s).
        rewrite !app_cons, app_nil_l. rewrite !normalize_plain by done.
        by rewrite IH2.
      * destruct (ascii_dec c' "160") as [->|Hne].
        -- change (Html.escape (String "194" (String "160" ?s))) with ("&nbsp;" +:+ Html.escape s).
           rewrite !app_cons, app_nil_l. rewrite !normalize_plain by done.
           rewrite IH1. reflexivity.
        -- rewrite escape_C2 by done. rewrite !(normalize_plain "194") by done.
           rewrite IH2. destruct (normalize_head c' t) as [r [-> | ->]];
             by rewrite escape_C2.
    + destruct (ascii_dec c Html.CR) as [->|Hne].
      * rewrite (escape_plain Html.CR) by done.
        destruct (ascii_dec c' Html.LF) as [->|Hlf].
        -- rewrite (escape_plain Html.LF) by done.
           change (Html.normalize_newlines (String Html.CR (String Html.LF ?s)))
             with (String Html.LF (Html.normalize_newlines s)).
           rewrite IH1. by rewrite (escape_plain Html.LF).
        -- rewrite (normalize_CR c') by done. rewrite (escape_plain Html.LF) by done.
           rewrite <- IH2.
           destruct (escape_head c' t) as [r [-> | ->]]; by rewrite normalize_CR.
      * rewrite escape_plain by done. rewrite !(normalize_plain c) by done.
        rewrite IH2. by rewrite escape_plain.
Qed.

(** ** Characters a text holds *)

Lemma occurs_app c s t : Html.occurs c (s +:+ t) = Html.occurs c s || Html.occurs c t.
Proof. induction s as [|x s IH]; [done|]. rewrite app_cons. cbn. by rewrite IH, orb_assoc. Qed.

Lemma normalize_id s : Html.occurs Html.CR s = false → Html.normalize_newlines s = s.
Proof.
  induction s as [|c s IH]; [done|]. cbn [Html.occurs]. intros [Hc Hs]%orb_false_iff.
  apply Ascii.eqb_neq in Hc. rewrite normalize_plain by done. by rewrite IH.
Qed.

Lemma normalize_no_CR s : Html.occurs Html.CR (Html.normalize_newlines s) = false.
Proof.
  induction s as [|c|c c' s IH1 IH2] using string_ind2; [done| |].
  - destruct (ascii_dec c Html.CR) as [->|Hne]; [done|].
    rewrite normalize_plain by done. cbn. apply Ascii.eqb_neq in Hne. by rewrite Hne.
  - destruct (ascii_dec c Html.CR) as [->|Hne].
    + destruct (ascii_dec c' Html.LF) as [->|Hlf].
      * change (Html.normalize_newlines (String Html.CR (String Html.LF ?s)))
          with (String Html.LF (Html.normalize_newlines s)). cbn [Html.occurs]. by rewrite IH1.
      * rewrite normalize_CR by done. cbn [Html.occurs]. by rewrite IH2.
    + rewrite normalize_plain by done. cbn [Html.occurs]. rewrite IH2.
      apply Ascii.eqb_neq in Hne. by rewrite Hne.
Qed.

Lemma normalize_changes s : Html.occurs Html.CR s = true → Html.normalize_newlines s ≠ s.
Proof.
  intros H Heq. pose proof (normalize_no_CR s) as Hn. rewrite Heq in Hn. congruence.
Qed.

Lemma normalize_keeps_out c s :
  c ≠ Html.LF → Html.occurs c s = false → Html.occurs c (Html.normalize_newlines s) = false.
Proof.
  intros Hc. induction s as [|x|x x' s IH1 IH2] using string_ind2; [done| |].
  - cbn [Html.occurs]. intros [Hx _]%orb_false_iff.
    destruct (ascii_dec x Html.CR) as [->|Hne].
    + change (Html.occurs c (String Html.LF "") = false). cbn [Html.occurs].
      rewrite orb_false_r. apply Ascii.eqb_neq. congruence.
    + rewrite normalize_plain by done. cbn [Html.occurs]. by rewrite Hx.
  - intros H. cbn [Html.occurs] in H. apply orb_false_iff in H as [Hx H].
    pose proof H as H'. cbn [Html.occurs] in H'. apply orb_false_iff in H' as [Hx' H'].
    destruct (ascii_dec x Html.CR) as [->|Hne].
    + destruct (ascii_dec x' Html.LF) as [->|Hlf].
      * change (Html.normalize_newlines (String Html.CR (String Html.LF ?s)))
          with (String Html.LF (Html.normalize_newlines s)). cbn [Html.occurs].
        rewrite IH1 by done. by rewrite Hx'.
      * rewrite normalize_CR by done. cbn [Html.occurs]. rewrite IH2 by done.
        rewrite orb_false_r. apply Ascii.eqb_neq. congruence.
    + rewrite normalize_plain by done. cbn [Html.occurs]. rewrite IH2 by done. by rewrite Hx.
Qed.

Lemma drop_nul_id s : Html.occurs Html.NUL s = false → Html.drop_nul s = s.
Proof.
  induction s as [|c s IH]; [done|]. cbn [Html.occurs Html.drop_nul].
  intros [-> Hs]%orb_false_iff. by rewrite IH.
Qed.

Lemma drop_nul_changes s : Html.occurs Html.NUL s = true → Html.drop_nul s ≠ s.
Proof.
  intros H Heq. apply (f_equal String.length) in Heq. revert H Heq.
  assert (Hle : ∀ r, String.length (Html.drop_nul r) ≤ String.length r).
  { induction r as [|c r IH]; [done|]. cbn. destruct (Ascii.eqb c Html.NUL); cbn; lia. }
  induction s as [|c s IH]; [done|]. cbn [Html.occurs Html.drop_nul].
  destruct (Ascii.eqb c Html.NUL); cbn.
  - intros _ Hl. pose proof (Hle s). lia.
  - intros H [= Hl]. by apply IH.
Qed.

(** ** The year text *)

Lemma year_char_cases c :
  Html.year_char c = true →
  c ∈ list_ascii_of_string "0123456789-".
Proof.
  unfold Html.year_char. rewrite existsb_exists. intros (x & Hx & ->%Ascii.eqb_eq).
  by apply list_elem_of_In.
Qed.

Lemma year_char_not c bad :
  Html.year_char c = true → Html.year_char bad = false → c ≠ bad.
Proof. intros H1 H2 ->. congruence. Qed.

Lemma year_char_plain c : Html.year_char c = true → Html.special c = false.
Proof.
  intros H. apply special_false.
  split_and!; by apply (year_char_not _ _ H).
Qed.

Lemma year_text_app s t : Html.year_text (s +:+ t) = Html.year_text s && Html.year_text t.
Proof. induction s as [|c s IH]; [done|]. rewrite app_cons. cbn. by rewrite IH, andb_assoc. Qed.

Lemma pretty_N_char_year x : Html.year_char (pretty_N_char x) = true.
Proof. unfold pretty_N_char. by repeat case_match. Qed.

Lemma pretty_N_go_year x s : Html.year_text s = true → Html.year_text (pretty_N_go x s) = true.
Proof.
  revert s. induction (N.lt_wf_0 x) as [x _ IH]; intros s Hs.
  assert (x = 0 ∨ 0 < x)%N as [->|?] by lia.
  - by rewrite pretty_N_go_0.
  - rewrite pretty_N_go_step by done. apply IH.
    { by apply N.div_lt. }
    cbn [Html.year_text]. by rewrite pretty_N_char_year.
Qed.

Lemma pretty_N_year (x : N) : Html.year_text (pretty x) = true.
Proof.
  unfold pretty, pretty_N. case_decide; [done|]. by apply pretty_N_go_year.
Qed.

Lemma of_number_year z : Html.year_text (Str.of_number z) = true.
Proof.
  unfold Str.of_number, pretty, pretty_Z. destruct z as [|x|x]; [done| |].
  - apply pretty_N_year.
  - rewrite year_text_app. apply andb_true_iff. split; [done|].
    apply (pretty_N_year (N.pos x)).
Qed.

Lemma pretty_N_go_nonempty x s : s ≠ "" → pretty_N_go x s ≠ "".
Proof.
  revert s. induction (N.lt_wf_0 x) as [x _ IH]; intros s Hs.
  assert (x = 0 ∨ 0 < x)%N as [->|?] by lia.
  - by rewrite pretty_N_go_0.
  - rewrite pretty_N_go_step by done. apply IH; [by apply N.div_lt|done].
Qed.

Lemma of_number_nonempty z : Str.of_number z ≠ "".
Proof.
  unfold Str.of_number, pretty, pretty_Z. destruct z as [|x|x]; [done| |done].
  unfold pretty, pretty_positive, pretty, pretty_N. case_decide; [done|].
  rewrite pretty_N_go_step by lia. by apply pretty_N_go_nonempty.
Qed.

Lemma occurs_year c s : Html.year_char c = false → Html.year_text s = true → Html.occurs c s = false.
Proof.
  intros Hc. induction s as [|x s IH]; [done|]. cbn [Html.year_text Html.occurs].
  intros [Hx Hs]%andb_true_iff. rewrite IH by done. rewrite orb_false_r.
  apply Ascii.eqb_neq. by apply (year_char_not _ _ Hx).
Qed.

(** ** Replacing in the serialisation is replacing in the text *)

Lemma escape_year_app u v : Html.year_text u = true → Html.escape (u +:+ v) = u +:+ Html.escape v.
Proof.
  induction u as [|c u IH]; [done|]. cbn [Html.year_text]. intros [Hc Hu]%andb_true_iff.
  rewrite app_cons, escape_plain by (by apply year_char_plain). by rewrite IH.
Qed.

Lemma prefix_escape pat t :
  Html.year_text pat = true → String.prefix pat (Html.escape t) = String.prefix pat t.
Proof.
  revert t. induction pat as [|p pat IH]; intros t; [by destruct (Html.escape t), t|].
  cbn [Html.year_text]. intros [Hp Hpat]%andb_true_iff.
  destruct t as [|c t]; [done|].
  destruct (ascii_dec p c) as [<-|Hne].
  - rewrite escape_plain by (by apply year_char_plain). cbn [String.prefix].
    destruct (ascii_dec p p); [|done]. by apply IH.
  - cbn [String.prefix]. destruct (ascii_dec p c) as [|_]; [done|].
    destruct (escape_head c t) as [r [-> | ->]]; cbn [String.prefix].
    + by destruct (ascii_dec p c).
    + destruct (ascii_dec p "&") as [->|]; [|done]. done.
Qed.

Lemma replace_prefix pat rep s :
  String.prefix pat s = true →
  Str.replace pat rep s = rep +:+ Str.drop (String.length pat) s.
Proof. intros H. destruct s; cbn [Str.replace]; by rewrite H. Qed.

Lemma replace_skip p pat rep c s :
  p ≠ c →
  Str.replace (String p pat) rep (String c s) = String c (Str.replace (String p pat) rep s).
Proof.
  intros H. cbn [Str.replace String.prefix]. by destruct (ascii_dec p c).
Qed.

Lemma replace_step pat rep c s :
  String.prefix pat (String c s) = false →
  Str.replace pat rep (String c s) = String c (Str.replace pat rep s).
Proof. intros H. cbn [Str.replace]. by rewrite H. Qed.

Lemma replace_empty p pat rep : Str.replace (String p pat) rep "" = "".
Proof. done. Qed.

Lemma escape_amp s : Html.escape (String "&" s) = "&amp;" +:+ Html.escape s.
Proof. done. Qed.

Lemma escape_lt s : Html.escape (String "<" s) = "&lt;" +:+ Html.escape s.
Proof. done. Qed.

Lemma escape_gt s : Html.escape (String ">" s) = "&gt;" +:+ Html.escape s.
Proof. done. Qed.

Lemma escape_nbsp s : Html.escape (String "194" (String "160" s)) = "&nbsp;" +:+ Html.escape s.
Proof. done. Qed.

(** What a replacement by a year text starts with. *)
Lemma replace_head p pat rep c s :
  Html.year_text rep = true → rep ≠ "" →
  ∃ x r, Str.replace (String p pat) rep (String c s) = String x r
         ∧ (x = c ∨ Html.year_char x = true).
Proof.
  intros Hrep Hne. destruct (String.prefix (String p pat) (String c s)) eqn:Hpre.
  - rewrite replace_prefix by done. destruct rep as [|x rep]; [done|].
    cbn [Html.year_text] in Hrep. apply andb_true_iff in Hrep as [Hx _].
    rewrite app_cons. eexists _, _. split; [done|]. by right.
  - rewrite replace_step by done. eexists _, _. split; [done|]. by left.
Qed.

Ltac skip_reference :=
  rewrite !app_cons, app_nil_l;
  rewrite !replace_skip by (by apply year_char_not).

Lemma replace_escape p pat rep t :
  Html.year_text (String p pat) = true → Html.year_text rep = true → rep ≠ "" →
  Str.replace (String p pat) rep (Html.escape t) = Html.escape (Str.replace (String p pat) rep t).
Proof.
  intros Hpat Hrep Hne.
  assert (Hp : Html.year_char p = true) by (by apply andb_true_iff in Hpat as [? _]).
  assert (Htrue : ∀ s, String.prefix (String p pat) s = true →
            Str.replace (String p pat) rep (Html.escape s)
            = Html.escape (Str.replace (String p pat) rep s)).
  { intros s Hs. rewrite (replace_prefix _ _ s) by done.
    rewrite replace_prefix by (by rewrite prefix_escape).
    apply prefix_app in Hs as [post ->].
    rewrite (escape_year_app (String p pat)) by done.
    rewrite !drop_app. by rewrite escape_year_app. }
  assert (Hplain : ∀ c s, Html.special c = false →
            String.prefix (String p pat) (String c s) = false →
            Str.replace (String p pat) rep (Html.escape s)
            = Html.escape (Str.replace (String p pat) rep s) →
            Str.replace (String p pat) rep (Html.escape (String c s))
            = Html.escape (Str.replace (String p pat) rep (String c s))).
  { intros c s Hc Hpre IH. rewrite (replace_step _ _ c s) by done.
    pose proof (prefix_escape (String p pat) (String c s) Hpat) as Hpe.
    rewrite Hpre, escape_plain in Hpe by done.
    rewrite !escape_plain by done. rewrite replace_step by done. by rewrite IH. }
  induction t as [|c|c c' t IH1 IH2] using string_ind2; [done| |].
  - destruct (String.prefix (String p pat) (String c "")) eqn:Hpre; [by apply Htrue|].
    destruct (Html.special c) eqn:Hs; [|by apply Hplain].
    rewrite (replace_step _ _ c) by done. rewrite replace_empty.
    unfold Html.special in Hs. rewrite !orb_true_iff, !Ascii.eqb_eq in Hs.
    destruct Hs as [[[->| ->]| ->]| ->].
    + rewrite escape_amp. by skip_reference.
    + rewrite escape_lt. by skip_reference.
    + rewrite escape_gt. by skip_reference.
    + change (Html.escape (String "194" "")) with (String "194" "").
      rewrite replace_skip by (by apply year_char_not). done.
  - destruct (String.prefix (String p pat) (String c (String c' t))) eqn:Hpre;
      [by apply Htrue|].
    destruct (Html.special c) eqn:Hs; [|by apply Hplain].
    rewrite (replace_step _ _ c) by done.
    unfold Html.special in Hs. rewrite !orb_true_iff, !Ascii.eqb_eq in Hs.
    destruct Hs as [[[->| ->]| ->]| ->].
    + rewrite !escape_amp. skip_reference. by rewrite IH2.
    + rewrite !escape_lt. skip_reference. by rewrite IH2.
    + rewrite !escape_gt. skip_reference. by rewrite IH2.
    + destruct (ascii_dec c' "160") as [->|Hc'].
      * rewrite escape_nbsp. skip_reference. rewrite IH1.
        by rewrite escape_nbsp.
      * rewrite escape_C2 by done.
        rewrite replace_skip by (by apply year_char_not). rewrite IH2.
        destruct (replace_head p pat rep c' t Hrep Hne) as (x & r & -> & [->|Hx]).
        -- by rewrite escape_C2.
        -- rewrite escape_C2; [done|]. by apply year_char_not.
Qed.

(** The text the footer paragraph holds once its patched markup has been
    parsed, and the markup it then has. *)
Lemma parse_escape t : Html.parse_text (Html.escape t) = Html.drop_nul (Html.normalize_newlines t).
Proof. unfold Html.parse_text. by rewrite normalize_escape, decode_escape. Qed.

Lemma parse_replace_escape z t :
  Html.parse_text (Str.replace "2024" (Str.of_number z) (Html.escape t))
  = Html.drop_nul (Html.normalize_newlines (Str.replace "2024" (Str.of_number z) t)).
Proof.
  rewrite replace_escape; [apply parse_escape|done|apply of_number_year|apply of_number_nonempty].
Qed.

(** ** Relations every step of a computation keeps *)

Section Preserves.

Context (R : relation Page) `{!PreOrder R}.

Lemma preserves_ret {A} (a : A) : preserves R (ret a).
Proof. intros p. reflexivity. Qed.

Lemma preserves_throw {A} : preserves R (@throw A).
Proof. intros p. reflexivity. Qed.

Lemma preserves_bind {A B} (m : JS A) (k : A → JS B) :
  preserves R m → (∀ a, preserves R (k a)) → preserves R (bind m k).
Proof.
  intros Hm Hk p. unfold bind. specialize (Hm p).
  destruct (m p) as [[a|] q]; cbn [snd] in *; [|done].
  etrans; [exact Hm|apply Hk].
Qed.

Lemma preserves_forEach {A} (l : list A) (f : A → JS unit) :
  (∀ x, x ∈ l → preserves R (f x)) → preserves R (forEach l f).
Proof.
  induction l as [|x l IH]; intros Hf; cbn [forEach].
  - apply preserves_ret.
  - apply preserves_bind; [apply Hf; left|].
    intros _. apply IH. intros y Hy. apply Hf. by right.
Qed.

Lemma preserves_same {A} (m : JS A) :
  (∀ p, snd (m p) = p) → preserves R m.
Proof. intros H p. rewrite H. reflexivity. Qed.

End Preserves.

#[global] Instance dom_rel_preorder (E : nat → relation Element) :
  (∀ n, PreOrder (E n)) → PreOrder (dom_rel E).
Proof.
  intros HE. split.
  - intros p. split; [done|]. intros n e e' H1 H2.
    rewrite H1 in H2. injection H2 as <-. reflexivity.
  - intros p q r [Hl1 H1] [Hl2 H2]. split; [congruence|].
    intros n e e'' Hp Hr.
    destruct (dom q !! n) as [e'|] eqn:Hq.
    + etrans; [by eapply H1|by eapply H2].
    + apply lookup_ge_None in Hq. apply lookup_lt_Some in Hp. lia.
Qed.

#[global] Instance keeps_listeners_preorder : PreOrder keeps_listeners.
Proof.
  split; [done|]. intros p q r [H1 H2] [H3 H4]. split; [congruence|lia].
Qed.

Lemma dom_rel_same_dom E `{∀ n, PreOrder (E n)} {A} (m : JS A) :
  (∀ p, dom (snd (m p)) = dom p) → preserves (dom_rel E) m.
Proof.
  intros Hd p. unfold dom_rel. rewrite Hd. split; [done|].
  intros n e e' H1 H2. rewrite H1 in H2. injection H2 as <-. reflexivity.
Qed.

Lemma dom_rel_update E `{∀ n, PreOrder (E n)} o f :
  (∀ n e, o = Some n → E n e (f e)) → preserves (dom_rel E) (update o f).
Proof.
  intros Hf p. unfold update. destruct o as [n|]; [|reflexivity].
  destruct (dom p !! n) as [e|] eqn:He; [|reflexivity].
  unfold dom_rel, with_dom. cbn [snd dom]. split; [by rewrite length_alter|].
  intros i x x' Hx Hx'. destruct (decide (i = n)) as [->|Hne].
  - rewrite list_lookup_alter_eq, Hx in Hx'. injection Hx' as <-. by apply Hf.
  - rewrite list_lookup_alter_ne in Hx' by done.
    rewrite Hx in Hx'. injection Hx' as <-. reflexivity.
Qed.

Lemma dom_get {A} o (f : Element → A) p : dom (snd (get o f p)) = dom p.
Proof. unfold get. by destruct (o ≫= _). Qed.

Lemma dom_addEventListener o ty f p : dom (snd (addEventListener o ty f p)) = dom p.
Proof.
  unfold addEventListener. destruct o; [|done]. cbn. by case_bool_decide.
Qed.

Lemma dom_removeEventListener o ty f p :
  dom (snd (removeEventListener o ty f p)) = dom p.
Proof. unfold removeEventListener. by destruct o. Qed.

Lemma keeps_listeners_get {A} o (f : Element → A) : preserves keeps_listeners (get o f).
Proof. intros p. unfold get. by destruct (o ≫= _). Qed.

Lemma keeps_listeners_update o f : preserves keeps_listeners (update o f).
Proof.
  intros p. unfold update. destruct o as [n|]; [|done]. by destruct (dom p !! n).
Qed.

Lemma keeps_listeners_emit x : preserves keeps_listeners (emit x).
Proof. done. Qed.

Lemma keeps_listeners_arrow : preserves keeps_listeners arrow_function.
Proof. intros p. split; [done|]. cbn. lia. Qed.

Lemma keeps_listeners_textContent o : preserves keeps_listeners (textContent o).
Proof.
  intros p. unfold textContent. destruct o as [n|]; [|done]. by destruct (dom p !! n).
Qed.

Lemma dom_textContent o p : dom (snd (textContent o p)) = dom p.
Proof. unfold textContent. destruct o as [n|]; [|done]. by destruct (dom p !! n). Qed.

(** Takes a computation apart along its structure; what is left are the
    conditions on the element updates. *)
Ltac preserves_go :=
  repeat first
    [ apply preserves_ret; apply _
    | apply preserves_throw; apply _
    | apply preserves_bind; [apply _ | | intros ?]
    | apply preserves_forEach; [apply _ | intros ? ?]
    | apply keeps_listeners_get
    | apply keeps_listeners_update
    | apply keeps_listeners_emit
    | apply keeps_listeners_arrow
    | apply keeps_listeners_textContent
    | apply dom_rel_same_dom; [done | intros ?; first [ apply dom_get | apply dom_addEventListener | apply dom_removeEventListener | reflexivity ] ]
    | apply dom_rel_update; [done | intros ? ? ?]
    | match goal with
      | |- preserves _ (if ?c then _ else _) => destruct c
      | |- preserves _ (match ?c with _ => _ end) => destruct c
      end ].

Ltac unfold_handlers :=
  unfold call, on_mobileBtn_click, on_navLink_click, on_mobileNavLink_click,
    on_deliveryBtn_click, on_hero_mousemove, on_hero_mouseleave, on_resize,
    on_franchiseBtn_click, on_DOMContentLoaded, ensure_menu_hidden,
    set_home_active, removeActiveClass, menu_shown, innerHTML, set_innerHTML,
    classList_toggle, classList_contains, classList_add, classList_remove,
    style_set_animation, style_set_boxShadow.

Lemma call_keeps_listeners offset_text sc c this ev :
  preserves keeps_listeners (call offset_text sc c this ev).
Proof.
  destruct c; unfold_handlers; preserves_go.
  apply preserves_same; [apply _|done].
Qed.

(** ** What the handlers and the script leave alone *)

#[global] Instance stable_preorder : PreOrder stable.
Proof.
  split.
  - intros e. unfold stable. tauto.
  - intros e1 e2 e3 (A1 & A2 & A3 & A4 & A5) (B1 & B2 & B3 & B4 & B5).
    unfold stable. split_and!; try congruence.
    intros t H1 H2. rewrite B5, A5 by done. done.
Qed.

#[global] Instance same_texts_preorder : PreOrder same_texts.
Proof. split; unfold same_texts; [done|]. intros ???; congruence. Qed.

#[global] Instance same_menu_state_preorder : PreOrder same_menu_state.
Proof.
  split; unfold same_menu_state; [done|]. intros ??? [??] [??]. split; congruence.
Qed.

#[global] Instance frame_preorder F n : PreOrder (frame F n).
Proof.
  split; unfold frame; [done|]. intros e1 e2 e3 H1 H2 Hn.
  rewrite H2, H1 by done. done.
Qed.

Lemma stable_classList f e :
  (∀ t l, t ≠ "hidden" → t ≠ "active-nav" →
          TokenList.contains t (f l) = TokenList.contains t l) →
  stable e (with_classList f e).
Proof. intros Hf. unfold stable. cbn. split_and!; try done. intros; by apply Hf. Qed.

Lemma stable_style f e : stable e (with_style f e).
Proof. unfold stable. cbn. tauto. Qed.

Lemma stable_texts f e : stable e (with_texts f e).
Proof. unfold stable. cbn. tauto. Qed.

Ltac stable_update :=
  first
    [ apply stable_style
    | apply stable_texts
    | apply stable_classList; intros;
      rewrite ?contains_toggle, ?contains_add_ne, ?contains_remove_ne by done;
      try rewrite bool_decide_eq_false_2 by done; done ].

Lemma dom_document_querySelector s p : dom (snd (document_querySelector s p)) = dom p.
Proof. done. Qed.

Lemma dom_emit x p : dom (snd (emit x p)) = dom p.
Proof. done. Qed.

Lemma dom_new_function c p : dom (snd (new_function c p)) = dom p.
Proof. done. Qed.

(** Steps that do not touch the document keep every [dom_rel]. *)
Ltac dom_untouched :=
  apply dom_rel_same_dom; [apply _ | intros ?;
    first [ apply dom_get | apply dom_addEventListener | apply dom_removeEventListener
          | apply dom_document_querySelector | apply dom_emit | apply dom_new_function
          | apply dom_textContent | reflexivity ] ].

Ltac dom_rel_go tac :=
  repeat first
    [ apply preserves_ret; apply _
    | apply preserves_throw; apply _
    | apply preserves_bind; [apply _ | | intros ?]
    | apply preserves_forEach; [apply _ | intros ? ?]
    | dom_untouched
    | apply dom_rel_update; [apply _ | intros ? ? ?; tac]
    | match goal with
      | |- preserves _ (if ?c then _ else _) => destruct c
      | |- preserves _ (match ?c with _ => _ end) => destruct c
      end ].

Lemma call_stable offset_text sc c this ev :
  preserves (dom_rel (λ _, stable)) (call offset_text sc c this ev).
Proof. destruct c; unfold_handlers; dom_rel_go stable_update. Qed.

Lemma call_same_texts offset_text sc c this ev :
  preserves (dom_rel (λ _, same_texts)) (call offset_text sc c this ev).
Proof. destruct c; unfold_handlers; dom_rel_go ltac:(done). Qed.

Ltac unfold_script :=
  unfold script, setup_mobile_menu, setup_navigation, setup_delivery, setup_hero,
    setup_year, setup_resize, setup_franchise, setup_touch, setup_init, listen,
    innerHTML, set_innerHTML, style_set_boxShadow.

Lemma script_stable sc b : preserves (dom_rel (λ _, stable)) (script sc b).
Proof. unfold_script; dom_rel_go stable_update. Qed.

Lemma fire_preserves (R : relation Page) `{!PreOrder R} offset_text sc :
  (∀ c this ev, preserves R (call offset_text sc c this ev)) →
  ∀ i p, R p (fire offset_text sc i p).
Proof.
  intros Hc i p. unfold fire, invoke. case_bool_decide; [apply Hc|reflexivity].
Qed.

Lemma run_preserves (R : relation Page) `{!PreOrder R} offset_text sc :
  (∀ c this ev, preserves R (call offset_text sc c this ev)) →
  ∀ evs p, R p (run offset_text sc evs p).
Proof.
  intros Hc evs. induction evs as [|i evs IH]; intros p; cbn [run fold_left].
  - reflexivity.
  - transitivity (fire offset_text sc i p); [by apply fire_preserves|apply IH].
Qed.

(** ** Lookups *)

Lemma head_elem_of {A} (l : list A) x : head l = Some x → x ∈ l.
Proof. destruct l; [done|]. intros [= ->]. left. Qed.

Lemma elem_of_filter_seq (f : nat → bool) N n :
  n ∈ List.filter f (seq 0 N) ↔ n < N ∧ f n = true.
Proof.
  rewrite list_elem_of_In, filter_In, in_seq. split; [intros [[_ ?] ?]|intros [? ?]];
    split; try done; lia.
Qed.

Lemma querySelectorAll_spec s d n :
  n ∈ querySelectorAll s d ↔ n < length d ∧ matches d s n = true.
Proof. apply elem_of_filter_seq. Qed.

Lemma querySelectorAll_NoDup s d : NoDup (querySelectorAll s d).
Proof.
  apply NoDup_ListNoDup, List.NoDup_filter, seq_NoDup.
Qed.

Lemma querySelector_spec s d n :
  querySelector s d = Some n → n < length d ∧ matches d s n = true.
Proof. intros H%head_elem_of. by apply querySelectorAll_spec. Qed.

Lemma getElementById_lt i d n : getElementById i d = Some n → n < length d.
Proof. intros H%head_elem_of. by apply elem_of_filter_seq in H as [? _]. Qed.

Lemma cache_ok d : scope_ok (cache d) (length d).
Proof.
  split; cbn [cache mobileBtn mobileMenu navLinks mobileNavLinks deliveryBtns
                heroDiv footerYearSpan franchiseBtn]; intros n H;
    first [ by eapply getElementById_lt
          | by eapply querySelector_spec
          | by eapply querySelectorAll_spec ].
Qed.

(** ** Total correctness *)

Lemma hoare_ret {A} (P : Page → Prop) (a : A) (Q : A → Page → Prop) :
  (∀ p, P p → Q a p) → hoare P (ret a) Q.
Proof. intros H p Hp. exists a, p. split; [done|by apply H]. Qed.

Lemma hoare_bind {A B} (P : Page → Prop) (m : JS A) (k : A → JS B) Q Q' :
  hoare P m Q → (∀ a, hoare (Q a) (k a) Q') → hoare P (bind m k) Q'.
Proof.
  intros Hm Hk p Hp. destruct (Hm p Hp) as (a & q & Hq & HQ).
  destruct (Hk a q HQ) as (b & r & Hr & HQ'). exists b, r.
  split; [|done]. by rewrite (bind_normal _ _ _ _ _ Hq).
Qed.

Lemma hoare_conseq {A} (P P' : Page → Prop) (m : JS A) (Q Q' : A → Page → Prop) :
  hoare P m Q → (∀ p, P' p → P p) → (∀ a q, Q a q → Q' a q) → hoare P' m Q'.
Proof.
  intros Hm HP HQ p Hp. destruct (Hm p (HP p Hp)) as (a & q & Hq & H).
  exists a, q. split; [done|by apply HQ].
Qed.

Lemma hoare_forEach {A} (I : Page → Prop) (l : list A) (f : A → JS unit) :
  (∀ x, x ∈ l → hoare I (f x) (λ _, I)) → hoare I (forEach l f) (λ _, I).
Proof.
  induction l as [|x l IH]; intros Hf; cbn [forEach].
  - by apply hoare_ret.
  - eapply hoare_bind; [apply Hf; left|].
    intros ?. apply IH. intros y Hy. apply Hf. by right.
Qed.

(** *** Completion on a document of [N] elements *)

Section Safe.

Variable N : nat.

Lemma safe_ret {A} (a : A) (Qv : A → Prop) : Qv a → safe N (ret a) Qv.
Proof. intros H. apply hoare_ret. done. Qed.

Lemma safe_bind {A B} (m : JS A) (k : A → JS B) Qv Qv' :
  safe N m Qv → (∀ a, Qv a → safe N (k a) Qv') → safe N (bind m k) Qv'.
Proof.
  intros Hm Hk p Hp. destruct (Hm p Hp) as (a & q & Hq & Hl & Ha).
  destruct (Hk a Ha q Hl) as (b & r & Hr & HQ'). exists b, r.
  split; [|done]. by rewrite (bind_normal _ _ _ _ _ Hq).
Qed.

Lemma safe_forEach {A} (l : list A) (f : A → JS unit) :
  (∀ x, x ∈ l → safe N (f x) (λ _, True)) → safe N (forEach l f) (λ _, True).
Proof.
  intros Hf. unfold safe.
  eapply hoare_conseq; [apply (hoare_forEach (λ p, length (dom p) = N))|done|done].
  intros x Hx. eapply hoare_conseq; [by apply Hf|done|]. by intros a q [? _].
Qed.

Lemma safe_emit x : safe N (emit x) (λ _, True).
Proof. intros p Hp. by eexists _, _. Qed.

Lemma safe_get {A} n (f : Element → A) : n < N → safe N (get (Some n) f) (λ _, True).
Proof.
  intros Hn p Hp. destruct (lookup_lt_is_Some_2 (dom p) n) as [e He]; [lia|].
  eexists _, _. split; [by eapply get_at|done].
Qed.

Lemma safe_arrow : safe N arrow_function (λ _, True).
Proof. intros p Hp. by eexists _, _. Qed.

Lemma safe_textContent n : n < N → safe N (textContent (Some n)) (λ _, True).
Proof.
  intros Hn p Hp. destruct (lookup_lt_is_Some_2 (dom p) n) as [e He]; [lia|].
  eexists _, _. split; [|done]. unfold textContent. by rewrite He.
Qed.

Lemma safe_update n f : n < N → safe N (update (Some n) f) (λ _, True).
Proof.
  intros Hn p Hp. destruct (lookup_lt_is_Some_2 (dom p) n) as [e He]; [lia|].
  eexists _, _. split; [by eapply update_at|].
  cbn [dom]. by rewrite length_insert.
Qed.

Lemma safe_document_querySelector s :
  safe N (document_querySelector s) (λ o, ∀ h, o = Some h → h < N).
Proof.
  intros p Hp. eexists _, _. split; [done|]. split; [done|].
  intros h Hh. apply querySelector_spec in Hh as [? _]. lia.
Qed.

End Safe.

(** ** No handler uses an absent element *)

Ltac safe_go :=
  repeat first
    [ apply safe_emit
    | apply safe_arrow
    | apply safe_textContent; eauto
    | apply safe_ret; done
    | apply safe_get; eauto
    | apply safe_update; eauto
    | apply safe_forEach; intros ? ?
    | match goal with
      | |- safe _ (bind (document_querySelector _) _) _ =>
          eapply safe_bind; [apply safe_document_querySelector | intros [?|] ?]
      | |- safe _ (bind _ _) _ =>
          apply (safe_bind _ _ _ (λ _, True)); [ | intros ? _ ]
      | |- safe _ (if ?c then _ else _) _ => destruct c eqn:?
      end ].

Lemma call_safe offset_text sc N c this ty ev :
  scope_ok sc N → well_attached sc N (this, ty, c) →
  safe N (call offset_text sc c this ev) (λ _, True).
Proof.
  intros Hsc Hw.
  pose proof (ok_mobileMenu _ _ Hsc) as Hmenu.
  pose proof (ok_navLinks _ _ Hsc) as Hnav.
  destruct c; cbn [well_attached] in Hw; unfold_handlers;
    lazymatch type of Hw with
    | ex _ => destruct Hw as (n & -> & Hn); cbn [this_element]
    | is_Some _ => destruct Hw as [m Hm]
    | _ => idtac
    end;
    destruct (mobileMenu sc) as [m'|] eqn:Hm'; cbn [truthy];
    try discriminate; safe_go.
Qed.

(** ** Evaluating the script *)

Lemma tracked_length vs hs p : tracked vs hs p → length (dom p) = length hs.
Proof. intros (_ & _ & <-). unfold all_texts. by rewrite length_fmap. Qed.

Lemma listen_tracked vs hs t ty c :
  hoare (tracked vs hs) (listen (Some t) ty c) (λ _, tracked (vs ++ [(t, ty, c)]) hs).
Proof.
  intros p (Hf & Hv & Hh). unfold listen, bind, new_function, addEventListener.
  cbn [dom listeners next_fn effects].
  rewrite bool_decide_eq_false_2.
  2:{ intros Hin. apply Hf in Hin. cbn in Hin. lia. }
  eexists _, _. split; [done|]. unfold tracked, fresh, views, all_texts, with_listeners.
  cbn [dom listeners next_fn effects]. split_and!.
  - intros l [Hl| ->%list_elem_of_singleton]%elem_of_app.
    + apply Hf in Hl. lia.
    + cbn. lia.
  - rewrite map_app. cbn. by rewrite <- Hv.
  - done.
Qed.

Lemma forEach_listen_tracked l ty c vs hs :
  hoare (tracked vs hs) (forEach l (λ n, listen (Some (Node n)) ty c))
        (λ _, tracked (vs ++ on_each l ty c) hs).
Proof.
  revert vs. induction l as [|n l IH]; intros vs; cbn [forEach].
  - apply hoare_ret. intros p. unfold on_each. cbn. by rewrite app_nil_r.
  - eapply hoare_bind; [apply listen_tracked|]. intros ?.
    eapply hoare_conseq; [apply IH|done|].
    intros ? q. cbn beta. unfold on_each. cbn [map].
    by rewrite <- app_assoc.
Qed.

Lemma arrow_tracked vs hs : hoare (tracked vs hs) arrow_function (λ _, tracked vs hs).
Proof.
  intros p (Hf & Hv & Hh). eexists _, _. split; [done|]. split_and!; try done.
  intros l Hl. apply Hf in Hl. cbn. lia.
Qed.

Lemma forEach_arrow_listen_tracked l ty c vs hs :
  hoare (tracked vs hs)
        (bind arrow_function (λ _, forEach l (λ n, listen (Some (Node n)) ty c)))
        (λ _, tracked (vs ++ on_each l ty c) hs).
Proof.
  eapply hoare_bind; [apply arrow_tracked|]. intros ?. apply forEach_listen_tracked.
Qed.

Lemma on_element_tracked o ty c vs hs :
  hoare (tracked vs hs)
        (if truthy o then listen (element o) ty c else ret tt)
        (λ _, tracked (vs ++ on_element o ty c) hs).
Proof.
  destruct o as [n|]; cbn [truthy element on_element fmap option_fmap option_map].
  - apply listen_tracked.
  - apply hoare_ret. intros p. by rewrite app_nil_r.
Qed.

Lemma setup_mobile_menu_tracked sc vs hs :
  hoare (tracked vs hs) (setup_mobile_menu sc)
        (λ _, tracked (vs ++ (if truthy (mobileMenu sc)
                              then on_element (mobileBtn sc) "click" MobileBtnClick
                              else [])) hs).
Proof.
  unfold setup_mobile_menu.
  destruct (mobileMenu sc) as [m|]; cbn [truthy].
  - rewrite andb_true_r. apply on_element_tracked.
  - rewrite andb_false_r. apply hoare_ret. intros p. by rewrite app_nil_r.
Qed.

Lemma setup_navigation_tracked sc vs hs :
  hoare (tracked vs hs) (setup_navigation sc)
        (λ _, tracked (vs ++ (on_each (navLinks sc) "click" NavLinkClick
                              ++ on_each (mobileNavLinks sc) "click" MobileNavLinkClick)) hs).
Proof.
  unfold setup_navigation.
  eapply hoare_bind; [apply arrow_tracked|]. intros ?.
  eapply hoare_bind; [apply forEach_listen_tracked|]. intros ?.
  eapply hoare_conseq; [apply forEach_arrow_listen_tracked|done|].
  intros ? q. cbn beta. by rewrite <- app_assoc.
Qed.

Lemma setup_hero_tracked sc b vs hs :
  hoare (tracked vs hs) (setup_hero sc b)
        (λ _, tracked (vs ++ (if hover_matches b
                              then on_element (heroDiv sc) "mousemove" HeroMouseMove
                                   ++ on_element (heroDiv sc) "mouseleave" HeroMouseLeave
                              else [])) hs).
Proof.
  unfold setup_hero.
  destruct (heroDiv sc) as [h|], (hover_matches b);
    cbn [truthy element on_element fmap option_fmap option_map app];
    try (apply hoare_ret; intros p; by rewrite app_nil_r).
  eapply hoare_bind; [apply listen_tracked|]. intros ?.
  eapply hoare_conseq; [apply listen_tracked|done|].
  intros ? q. cbn beta. by rewrite <- app_assoc.
Qed.

Lemma filter_all {A} (P : A → Prop) `{∀ x, Decision (P x)} (l : list A) :
  (∀ x, x ∈ l → P x) → filter P l = l.
Proof.
  induction l as [|x l IH]; intros Hall; [done|].
  rewrite filter_cons_True by (apply Hall; left).
  f_equal. apply IH. intros y Hy. apply Hall. by right.
Qed.

Lemma setup_year_tracked sc b vs hs :
  scope_ok sc (length hs) →
  hoare (tracked vs hs) (setup_year sc b) (λ _, tracked vs (year_texts sc b hs)).
Proof.
  intros Hsc. unfold setup_year, year_texts.
  destruct (footerYearSpan sc) as [f|] eqn:Hf; cbn [truthy]; [|by apply hoare_ret].
  intros p Hp. pose proof (tracked_length _ _ _ Hp) as Hlen.
  destruct Hp as (Hfr & Hv & Hh).
  destruct (lookup_lt_is_Some_2 (dom p) f) as [e He].
  { rewrite Hlen. by eapply ok_footerYearSpan. }
  eexists _, _. split.
  { eapply run_bind; [by eapply get_at|]. cbv beta. by eapply update_at. }
  unfold tracked, fresh, views, all_texts. cbn [dom listeners next_fn effects].
  split_and!; [done..|].
  rewrite list_fmap_insert. cbn [with_texts texts]. rewrite <- Hh. unfold all_texts.
  rewrite (alter_at _ f (texts <$> dom p) (texts e)) by (by rewrite list_lookup_fmap, He).
  done.
Qed.

Lemma setup_touch_tracked sc b vs hs :
  scope_ok sc (length hs) →
  hoare (tracked vs hs) (setup_touch sc b) (λ _, tracked vs hs).
Proof.
  intros Hsc. unfold setup_touch.
  destruct (has_ontouchstart b); [|by apply hoare_ret].
  destruct (heroDiv sc) as [h|] eqn:Hh; cbn [truthy].
  2:{ apply (hoare_bind _ _ _ (λ _, tracked vs hs)); [by apply hoare_ret|].
      intros ?. by apply hoare_ret. }
  intros p Hp. pose proof (tracked_length _ _ _ Hp) as Hlen.
  destruct Hp as (Hfr & Hv & Hhs).
  destruct (lookup_lt_is_Some_2 (dom p) h) as [e He].
  { rewrite Hlen. by eapply ok_heroDiv. }
  eexists _, _. split.
  { eapply run_bind; [reflexivity|]. cbv beta.
    unfold style_set_boxShadow. eapply update_at.
    cbn. exact He. }
  unfold tracked, fresh, views, all_texts, with_listeners.
  cbn [dom listeners next_fn effects].
  rewrite filter_all.
  2:{ intros l Hl ->. apply Hfr in Hl. cbn in Hl. lia. }
  split_and!.
  - intros l Hl. apply Hfr in Hl. lia.
  - done.
  - rewrite list_fmap_insert. cbn. rewrite <- Hhs. unfold all_texts.
    apply list_insert_id. by rewrite list_lookup_fmap, He.
Qed.

Lemma year_htmls_length sc b hs : length (year_texts sc b hs) = length hs.
Proof. unfold year_texts. destruct (footerYearSpan sc); [|done]. apply length_alter. Qed.

(** The script completes normally; it registers [script_views] and patches
    the markup of the footer paragraph, nothing else. *)
Lemma script_tracked sc b hs :
  scope_ok sc (length hs) →
  hoare (tracked [] hs) (script sc b)
        (λ _, tracked (script_views sc b) (year_texts sc b hs)).
Proof.
  intros Hsc. unfold script, script_views.
  eapply hoare_bind; [apply (setup_mobile_menu_tracked sc [] hs)|]. intros ?.
  eapply hoare_bind; [apply setup_navigation_tracked|]. intros ?.
  eapply hoare_bind; [apply forEach_arrow_listen_tracked|]. intros ?.
  eapply hoare_bind; [apply setup_hero_tracked|]. intros ?.
  eapply hoare_bind; [by apply setup_year_tracked|]. intros ?.
  eapply hoare_bind; [apply listen_tracked|]. intros ?.
  eapply hoare_bind; [apply on_element_tracked|]. intros ?.
  eapply hoare_bind; [apply setup_touch_tracked; by rewrite year_htmls_length|]. intros ?.
  eapply hoare_conseq; [apply listen_tracked|done|].
  intros ? q. cbn beta. by rewrite <- !app_assoc.
Qed.

(** ** The registered listeners *)

Lemma elem_of_on_element o ty c v :
  v ∈ on_element o ty c ↔ ∃ n, o = Some n ∧ v = (Node n, ty, c).
Proof.
  destruct o as [n|]; cbn [on_element].
  - rewrite list_elem_of_singleton. naive_solver.
  - rewrite elem_of_nil. naive_solver.
Qed.

Lemma elem_of_on_each l ty c v :
  v ∈ on_each l ty c ↔ ∃ n, v = (Node n, ty, c) ∧ n ∈ l.
Proof. unfold on_each. apply list_elem_of_fmap. Qed.

Lemma elem_of_script_views sc b v :
  v ∈ script_views sc b ↔
    (∃ n, v = (Node n, "click", MobileBtnClick)
          ∧ mobileBtn sc = Some n ∧ is_Some (mobileMenu sc))
    ∨ (∃ n, v = (Node n, "click", NavLinkClick) ∧ n ∈ navLinks sc)
    ∨ (∃ n, v = (Node n, "click", MobileNavLinkClick) ∧ n ∈ mobileNavLinks sc)
    ∨ (∃ n, v = (Node n, "click", DeliveryBtnClick) ∧ n ∈ deliveryBtns sc)
    ∨ (∃ n, v = (Node n, "mousemove", HeroMouseMove)
            ∧ heroDiv sc = Some n ∧ hover_matches b = true)
    ∨ (∃ n, v = (Node n, "mouseleave", HeroMouseLeave)
            ∧ heroDiv sc = Some n ∧ hover_matches b = true)
    ∨ v = (Window, "resize", WindowResize)
    ∨ (∃ n, v = (Node n, "click", FranchiseBtnClick) ∧ franchiseBtn sc = Some n)
    ∨ v = (Window, "DOMContentLoaded", DOMContentLoaded).
Proof.
  unfold script_views.
  destruct (mobileMenu sc) as [m|], (hover_matches b); cbn [truthy];
    rewrite !elem_of_app, ?elem_of_on_element, !elem_of_on_each,
      !list_elem_of_singleton, ?elem_of_nil;
    unfold is_Some; naive_solver.
Qed.

(** The cases of [elem_of_script_views]. *)
Ltac views_cases H :=
  destruct H as [(? & ? & ? & ?)|[(? & ? & ?)|[(? & ? & ?)|[(? & ? & ?)|
                [(? & ? & ? & ?)|[(? & ? & ? & ?)|[?|[(? & ? & ?)|?]]]]]]]].

Lemma script_views_well_attached sc N b v :
  scope_ok sc N → v ∈ script_views sc b → well_attached sc N v.
Proof.
  intros Hsc. rewrite elem_of_script_views.
  intros [(n & -> & ? & ?)|[(n & -> & ?)|[(n & -> & ?)|[(n & -> & ?)|
         [(n & -> & ? & ?)|[(n & -> & ? & ?)|[->|[(n & -> & ?)| ->]]]]]]]];
    cbn [well_attached]; try done; exists n; split; try done.
  - by eapply ok_navLinks.
  - by eapply ok_mobileNavLinks.
  - by eapply ok_heroDiv.
  - by eapply ok_heroDiv.
Qed.

(** ** The loaded page and the pages reachable from it *)

Lemma initial_tracked d : tracked [] (texts <$> d) (initial d).
Proof. split_and!; try done. intros l Hl. by apply elem_of_nil in Hl. Qed.

Lemma main_tracked b d :
  ∃ q, main b d = (Normal tt, q)
       ∧ tracked (script_views (cache d) b)
                 (year_texts (cache d) b (texts <$> d)) q.
Proof.
  destruct (script_tracked (cache d) b (texts <$> d)) with (p := initial d)
    as ([] & q & Hq & Ht).
  - rewrite length_fmap. apply cache_ok.
  - apply initial_tracked.
  - by exists q.
Qed.

Lemma loaded_views b d : views (loaded b d) = script_views (cache d) b.
Proof.
  destruct (main_tracked b d) as (q & Hq & _ & Hv & _).
  unfold loaded. by rewrite Hq.
Qed.

Lemma loaded_texts b d :
  all_texts (loaded b d) = year_texts (cache d) b (texts <$> d).
Proof.
  destruct (main_tracked b d) as (q & Hq & _ & _ & Hh).
  unfold loaded. by rewrite Hq.
Qed.

Lemma loaded_stable b d : dom_rel (λ _, stable) (initial d) (loaded b d).
Proof. apply script_stable. Qed.

Lemma same_texts_all p q : dom_rel (λ _, same_texts) p q → all_texts q = all_texts p.
Proof.
  intros [Hl H]. unfold all_texts. apply list_eq. intros n.
  rewrite !list_lookup_fmap.
  destruct (dom p !! n) as [e|] eqn:Hp, (dom q !! n) as [e'|] eqn:Hq; cbn.
  - f_equal. by eapply H.
  - apply lookup_ge_None in Hq. apply lookup_lt_Some in Hp. lia.
  - apply lookup_ge_None in Hp. apply lookup_lt_Some in Hq. lia.
  - done.
Qed.

Lemma reachable_listeners offset_text b d p :
  reachable offset_text b d p → listeners p = listeners (loaded b d).
Proof.
  intros [evs ->].
  apply (run_preserves keeps_listeners offset_text (cache d)).
  intros c this ev. apply call_keeps_listeners.
Qed.

Lemma reachable_views offset_text b d p :
  reachable offset_text b d p → views p = script_views (cache d) b.
Proof.
  intros H. unfold views. rewrite (reachable_listeners _ _ _ _ H). apply loaded_views.
Qed.

Lemma reachable_stable offset_text b d p :
  reachable offset_text b d p → dom_rel (λ _, stable) (initial d) p.
Proof.
  intros [evs ->]. etrans; [apply loaded_stable|].
  apply (run_preserves _ offset_text (cache d)). intros c this ev. apply call_stable.
Qed.

Lemma reachable_length offset_text b d p : reachable offset_text b d p → length (dom p) = length d.
Proof. intros H. by apply reachable_stable in H as [? _]. Qed.

Lemma reachable_texts offset_text b d p :
  reachable offset_text b d p → all_texts p = year_texts (cache d) b (texts <$> d).
Proof.
  intros [evs ->]. rewrite <- loaded_texts. apply same_texts_all.
  apply (run_preserves _ offset_text (cache d)). intros c this ev. apply call_same_texts.
Qed.

Lemma reachable_loaded offset_text b d : reachable offset_text b d (loaded b d).
Proof. by exists []. Qed.

Lemma reachable_fire offset_text b d p i :
  reachable offset_text b d p → reachable offset_text b d (fire offset_text (cache d) i p).
Proof.
  intros [evs ->]. exists (evs ++ [i]). unfold run. by rewrite fold_left_app.
Qed.

(** No listener ever uses an absent element. *)
Lemma invoke_safe offset_text b d p i :
  reachable offset_text b d p → fst (invoke offset_text (cache d) i p) = Normal tt.
Proof.
  intros Hr. unfold invoke. case_bool_decide as Hin; [|done].
  assert (Hv : view (inv_listener i) ∈ script_views (cache d) b).
  { rewrite <- (reachable_views _ _ _ _ Hr). unfold views.
    apply list_elem_of_fmap. by exists (inv_listener i). }
  eapply script_views_well_attached in Hv; [|apply cache_ok].
  destruct (call_safe offset_text (cache d) (length d) _ _ _ (inv_event i) (cache_ok d) Hv
              p (reachable_length _ _ _ _ Hr)) as ([] & q & Hq & _).
  cbn [view] in Hq. by rewrite Hq.
Qed.

(** ** The claims about the script as a whole *)

(** C6: the script completes without using an absent element; a listener
    whose element (or, for the hamburger button, whose menu) was not found is
    not registered; every registered listener sits on the window or on an
    element of the document; and no call of a registered listener, whatever
    the events before it, uses an absent element. *)
Theorem C6_absent_elements offset_text b d :
  let sc := cache d in
  fst (main b d) = Normal tt
  ∧ (mobileBtn sc = None ∨ mobileMenu sc = None →
     ∀ v, v ∈ views (loaded b d) → v.2 ≠ MobileBtnClick)
  ∧ (heroDiv sc = None →
     ∀ v, v ∈ views (loaded b d) → v.2 ≠ HeroMouseMove ∧ v.2 ≠ HeroMouseLeave)
  ∧ (franchiseBtn sc = None →
     ∀ v, v ∈ views (loaded b d) → v.2 ≠ FranchiseBtnClick)
  ∧ (∀ v, v ∈ views (loaded b d) →
          v.1.1 = Window ∨ ∃ n, v.1.1 = Node n ∧ n < length d)
  ∧ (∀ p i, reachable offset_text b d p → fst (invoke offset_text sc i p) = Normal tt).
Proof.
  intros sc. pose proof (cache_ok d) as Hok. fold sc in Hok.
  split_and!.
  - destruct (main_tracked b d) as (q & -> & _). done.
  - intros Habs v. rewrite loaded_views, elem_of_script_views. fold sc.
    intros Hv Hc. destruct v as [[t ty] c]. cbn in Hc. subst c.
    destruct Hv as [(n & _ & Hb & [m Hm])|Hv]; [destruct Habs; congruence|].
    naive_solver.
  - intros Habs v. rewrite loaded_views, elem_of_script_views. fold sc.
    intros Hv. destruct v as [[t ty] c]. cbn. naive_solver.
  - intros Habs v. rewrite loaded_views, elem_of_script_views. fold sc.
    intros Hv. destruct v as [[t ty] c]. cbn. naive_solver.
  - intros v. rewrite loaded_views, elem_of_script_views. fold sc.
    destruct Hok.
    intros [(n & -> & ? & ?)|[(n & -> & ?)|[(n & -> & ?)|[(n & -> & ?)|
           [(n & -> & ? & ?)|[(n & -> & ? & ?)|[->|[(n & -> & ?)| ->]]]]]]]];
      cbn; eauto 6.
  - intros p i Hr. by eapply invoke_safe.
Qed.

(** C9: evaluating the touch block leaves the listener list as it is —
    the function it passes to [removeEventListener] is a new object, which
    was never registered — so the listeners are the same with and without
    touch support, and the hero image's mousemove listener is registered
    exactly when the hero image exists and the '(hover: hover)' query
    matches. *)
Theorem C9_touch_block_detaches_nothing b d :
  views (loaded (with_touch true b) d) = views (loaded (with_touch false b) d)
  ∧ (∀ vs hs p, scope_ok (cache d) (length hs) → tracked vs hs p →
                views (snd (setup_touch (cache d) b p)) = views p)
  ∧ (∀ t ty, (t, ty, HeroMouseMove) ∈ views (loaded b d)
             ↔ ty = "mousemove" ∧ element (heroDiv (cache d)) = Some t
               ∧ hover_matches b = true).
Proof.
  split_and!.
  - by rewrite !loaded_views.
  - intros vs hs p Hsc Hp.
    destruct (setup_touch_tracked (cache d) b vs hs Hsc p Hp) as (a & q & -> & _ & Hv & _).
    destruct Hp as (_ & Hv' & _). cbn [snd]. congruence.
  - intros t ty. rewrite loaded_views, elem_of_script_views.
    destruct (heroDiv (cache d)) as [h|]; cbn; naive_solver.
Qed.

Lemma app_nil_r_string s : s +:+ "" = s.
Proof. induction s as [|c s IH]; [done|]. by rewrite app_cons, IH. Qed.

Lemma occurs_replace c pat rep s :
  Html.occurs c s = false → Html.occurs c rep = false →
  Html.occurs c (Str.replace pat rep s) = false.
Proof.
  intros Hs Hrep. induction s as [|x s IH].
  - cbn [Str.replace]. destruct (String.prefix pat "") eqn:Hp; [|done].
    apply prefix_app in Hp as [post Hp]. rewrite Hp at 1. rewrite drop_app.
    rewrite occurs_app, Hrep. rewrite Hp, occurs_app in Hs.
    by apply orb_false_iff in Hs as [_ ->].
  - cbn [Str.replace]. destruct (String.prefix pat (String x s)) eqn:Hp.
    + apply prefix_app in Hp as [post Hp]. rewrite Hp, drop_app.
      rewrite occurs_app, Hrep. rewrite Hp, occurs_app in Hs.
      by apply orb_false_iff in Hs as [_ ->].
    + cbn [Html.occurs] in *. apply orb_false_iff in Hs as [-> Hs]. by apply IH.
Qed.

(** Text without CR and U+0000 comes out of the parser as it went into the
    serialiser. *)
Lemma clean_id s :
  Html.occurs Html.CR s = false → Html.occurs Html.NUL s = false →
  Html.drop_nul (Html.normalize_newlines s) = s.
Proof. intros H1 H2. rewrite normalize_id by done. by apply drop_nul_id. Qed.

(** The Text child of the footer paragraph on every page the browser can
    reach. *)
Lemma footer_patched offset_text b d p f t :
  reachable offset_text b d p →
  footerYearSpan (cache d) = Some f → texts <$> d !! f = Some [t] →
  texts <$> dom p !! f
  = Some [Html.drop_nul
            (Html.normalize_newlines
               (Str.replace "2024" (Str.of_number (currentYear b)) t))]
  ∧ ∀ n, n ≠ f → texts <$> dom p !! n = texts <$> d !! n.
Proof.
  intros Hr Hf Ht. pose proof (reachable_texts _ _ _ _ Hr) as Hh.
  unfold all_texts, year_texts in Hh. rewrite Hf in Hh. split.
  - rewrite <- list_lookup_fmap, Hh.
    rewrite list_lookup_alter_eq, list_lookup_fmap, Ht. cbn. unfold patched_texts.
    cbn [serialize_texts fold_right]. rewrite app_nil_r_string.
    by rewrite parse_replace_escape.
  - intros n Hn. rewrite <- list_lookup_fmap, Hh.
    by rewrite list_lookup_alter_ne, list_lookup_fmap.
Qed.


(** ** The active nav link *)

#[global] Instance same_active_preorder : PreOrder same_active.
Proof. split; unfold same_active; [done|]. intros ???; congruence. Qed.

Lemma is_active_same p q :
  dom_rel (λ _, same_active) p q → ∀ n, is_active (dom q) n = is_active (dom p) n.
Proof.
  intros [Hl H] n. unfold is_active.
  destruct (dom p !! n) as [e|] eqn:Hp, (dom q !! n) as [e'|] eqn:Hq; try done.
  - by eapply H.
  - apply lookup_ge_None in Hq. apply lookup_lt_Some in Hp. lia.
  - apply lookup_ge_None in Hp. apply lookup_lt_Some in Hq. lia.
Qed.

Lemma active_links_same sc p q :
  dom_rel (λ _, same_active) p q → active_links sc q = active_links sc p.
Proof.
  intros H. unfold active_links. apply List.filter_ext. by apply is_active_same.
Qed.

Lemma removeActiveClass_run sc p :
  removeActiveClass sc p
  = forEach (navLinks sc) (λ link, classList_remove (Some link) "active-nav")
            (mkPage (dom p) (listeners p) (S (next_fn p)) (effects p)).
Proof. done. Qed.

(** The loop of [removeActiveClass], run on the links [l]. *)
Lemma remove_active_spec l p :
  (∀ n, n ∈ l → n < length (dom p)) →
  ∃ q, forEach l (λ link, classList_remove (Some link) "active-nav") p = (Normal tt, q)
       ∧ length (dom q) = length (dom p)
       ∧ (∀ n, n ∈ l → is_active (dom q) n = false)
       ∧ (∀ n, n ∉ l → dom q !! n = dom p !! n).
Proof.
  revert p. induction l as [|x l IH]; intros p Hl; cbn [forEach].
  - exists p. split_and!; try done. intros n Hn. by apply elem_of_nil in Hn.
  - destruct (lookup_lt_is_Some_2 (dom p) x) as [e He]; [apply Hl; left|].
    unfold classList_remove at 1.
    erewrite bind_normal by (by eapply update_at).
    set (p1 := mkPage _ _ _ _).
    destruct (IH p1) as (q & Hq & Hlen & Hoff & Hout).
    { intros n Hn. subst p1. cbn [dom]. rewrite length_insert. apply Hl. by right. }
    exists q. subst p1. cbn [dom] in *. rewrite length_insert in Hlen.
    split_and!; try done.
    + intros n [->|Hn]%elem_of_cons; [|by apply Hoff].
      destruct (decide (x ∈ l)) as [Hx|Hx]; [by apply Hoff|].
      unfold is_active. rewrite (Hout _ Hx), list_lookup_insert_eq
        by (by eapply lookup_lt_Some).
      cbn. apply contains_remove_eq.
    + intros n Hn. apply not_elem_of_cons in Hn as [Hne Hn].
      rewrite (Hout _ Hn). by apply list_lookup_insert_ne.
Qed.

Lemma filter_only (f : nat → bool) (l : list nat) x :
  NoDup l → x ∈ l → (∀ n, n ∈ l → f n = bool_decide (n = x)) →
  List.filter f l = [x].
Proof.
  induction l as [|y l IH]; intros Hnd Hx Hf; [by apply elem_of_nil in Hx|].
  apply NoDup_cons in Hnd as [Hy Hnd]. cbn [List.filter].
  rewrite (Hf y) by left. case_bool_decide as Hyx.
  - subst y. f_equal. clear IH Hx.
    induction l as [|z l IH]; [done|]. cbn [List.filter].
    apply not_elem_of_cons in Hy as [Hne Hy]. apply NoDup_cons in Hnd as [_ Hnd].
    rewrite (Hf z) by (right; left). rewrite bool_decide_eq_false_2 by done.
    apply IH; [done|done|]. intros n Hn. apply Hf.
    apply elem_of_cons in Hn as [->|Hn]; [left|right; by right].
  - apply elem_of_cons in Hx as [->|Hx]; [done|].
    apply IH; [done|done|]. intros n Hn. apply Hf. by right.
Qed.

(** Lines 84-85 and lines 232-233: every nav link loses 'active-nav', then
    [h] gets it. *)
Lemma activate_spec sc p h :
  (∀ n, n ∈ navLinks sc → n < length (dom p)) →
  NoDup (navLinks sc) → h ∈ navLinks sc →
  ∃ q, bind (removeActiveClass sc) (λ _, classList_add (Some h) "active-nav") p
       = (Normal tt, q)
       ∧ active_links sc q = [h].
Proof.
  intros Hl Hnd Hh.
  destruct (remove_active_spec (navLinks sc)
              (mkPage (dom p) (listeners p) (S (next_fn p)) (effects p)) Hl)
    as (q & Hq & Hlen & Hoff & Hout).
  rewrite <- removeActiveClass_run in Hq. cbn [dom] in Hlen, Hout.
  destruct (lookup_lt_is_Some_2 (dom q) h) as [e He]; [rewrite Hlen; by apply Hl|].
  eexists. split.
  { eapply run_bind; [exact Hq|]. cbv beta. unfold classList_add. by eapply update_at. }
  unfold active_links. cbn [dom]. apply filter_only; [done..|].
  intros n Hn. unfold is_active. case_bool_decide as Hnh.
  - subst n. rewrite list_lookup_insert_eq by (by eapply lookup_lt_Some).
    cbn. apply contains_add_eq.
  - rewrite list_lookup_insert_ne by done. by apply Hoff.
Qed.

Lemma on_navLink_click_active sc p link :
  (∀ n, n ∈ navLinks sc → n < length (dom p)) →
  NoDup (navLinks sc) → link ∈ navLinks sc →
  active_links sc (snd (on_navLink_click sc (Node link) p)) = [link].
Proof.
  intros Hl Hnd Hin. unfold on_navLink_click. cbn [this_element].
  erewrite bind_normal by apply run_emit.
  set (p1 := mkPage _ _ _ _).
  destruct (activate_spec sc p1 link Hl Hnd Hin) as (q & -> & Hq). done.
Qed.

Lemma matches_home_stable p q n :
  dom_rel (λ _, stable) p q →
  matches (dom q) (SelClassHref "nav-link" "#") n
  = matches (dom p) (SelClassHref "nav-link" "#") n.
Proof.
  intros [Hl H]. cbn [matches].
  destruct (dom p !! n) as [e|] eqn:Hp, (dom q !! n) as [e'|] eqn:Hq; try done.
  - destruct (H n e e' Hp Hq) as (_ & _ & Hhref & _ & Htok).
    rewrite Hhref, Htok by done. done.
  - apply lookup_ge_None in Hq. apply lookup_lt_Some in Hp. lia.
  - apply lookup_ge_None in Hp. apply lookup_lt_Some in Hq. lia.
Qed.

Lemma querySelector_home_stable p q :
  dom_rel (λ _, stable) p q →
  querySelector (SelClassHref "nav-link" "#") (dom q)
  = querySelector (SelClassHref "nav-link" "#") (dom p).
Proof.
  intros H. unfold querySelector, querySelectorAll. rewrite (proj1 H).
  f_equal. apply List.filter_ext. intros n. by apply matches_home_stable.
Qed.

(** The home link the load handler finds is one of the cached nav links. *)
Lemma home_in_navLinks d p h :
  dom_rel (λ _, stable) (initial d) p →
  querySelector (SelClassHref "nav-link" "#") (dom p) = Some h →
  h ∈ navLinks (cache d).
Proof.
  intros Hst Hq. rewrite (querySelector_home_stable _ _ Hst) in Hq.
  apply querySelector_spec in Hq as [Hlt Hm]. cbn [initial dom] in *.
  cbn [cache navLinks]. apply querySelectorAll_spec. split; [done|].
  cbn [matches] in *. destruct (d !! h) as [e|]; [|done].
  by apply andb_true_iff in Hm as [? _].
Qed.

Lemma ensure_menu_hidden_safe sc N :
  scope_ok sc N → safe N (ensure_menu_hidden sc) (λ _, True).
Proof.
  intros Hsc. pose proof (ok_mobileMenu _ _ Hsc) as Hmenu.
  unfold ensure_menu_hidden, menu_shown, classList_contains, classList_add.
  destruct (mobileMenu sc) as [m|]; cbn [truthy]; safe_go.
Qed.

Lemma ensure_menu_hidden_stable sc :
  preserves (dom_rel (λ _, stable)) (ensure_menu_hidden sc).
Proof. unfold_handlers. dom_rel_go stable_update. Qed.

Lemma ensure_menu_hidden_same_active sc :
  preserves (dom_rel (λ _, same_active)) (ensure_menu_hidden sc).
Proof.
  unfold_handlers.
  dom_rel_go ltac:(unfold same_active; cbn; by rewrite contains_add_ne).
Qed.

Lemma active_links_dom sc p q : dom q = dom p → active_links sc q = active_links sc p.
Proof. unfold active_links. by intros ->. Qed.

Lemma set_home_active_spec d p :
  dom_rel (λ _, stable) (initial d) p →
  let sc := cache d in
  ∃ q, set_home_active sc p = (Normal tt, q)
       ∧ match querySelector (SelClassHref "nav-link" "#") (dom p) with
         | Some h => h ∈ navLinks sc ∧ active_links sc q = [h]
         | None => q = p
         end.
Proof.
  intros Hst sc. unfold set_home_active.
  pose proof (cache_ok d) as Hok. fold sc in Hok.
  assert (Hlen : length (dom p) = length d) by apply Hst.
  destruct (querySelector _ (dom p)) as [h|] eqn:Hh.
  - pose proof (home_in_navLinks d p h Hst Hh) as Hin.
    destruct (activate_spec sc p h) as (q & Hq & Hact);
      [|apply querySelectorAll_NoDup|done|].
    { intros n Hn. rewrite Hlen. by apply (ok_navLinks _ _ Hok). }
    exists q. split; [|done].
    eapply run_bind; [reflexivity|]. cbv beta. by rewrite Hh.
  - exists p. split; [|done].
    eapply run_bind; [reflexivity|]. cbv beta. by rewrite Hh.
Qed.

(** The load handler, on a page whose document still has the elements of
    the one the script was evaluated on. *)
Lemma on_DOMContentLoaded_active d p :
  dom_rel (λ _, stable) (initial d) p →
  let sc := cache d in
  let q := snd (on_DOMContentLoaded sc p) in
  match querySelector (SelClassHref "nav-link" "#") (dom p) with
  | Some h => h ∈ navLinks sc ∧ active_links sc q = [h]
  | None => active_links sc q = active_links sc p
  end.
Proof.
  intros Hst sc q. subst q. unfold on_DOMContentLoaded.
  pose proof (cache_ok d) as Hok. fold sc in Hok.
  assert (Hlen : length (dom p) = length d) by apply Hst.
  destruct (ensure_menu_hidden_safe sc _ Hok p Hlen) as ([] & p1 & Hp1 & Hlen1 & _).
  pose proof (ensure_menu_hidden_stable sc p) as Hs1.
  pose proof (ensure_menu_hidden_same_active sc p) as Ha1.
  rewrite Hp1 in Hs1, Ha1. cbn [snd] in Hs1, Ha1.
  rewrite (bind_normal _ _ _ _ _ Hp1).
  assert (Hst1 : dom_rel (λ _, stable) (initial d) p1) by (by etrans).
  destruct (set_home_active_spec d p1 Hst1) as (q & Hq & Hhome). fold sc in Hq, Hhome.
  rewrite (bind_normal _ _ _ _ _ Hq).
  rewrite (querySelector_home_stable _ _ Hs1) in Hhome.
  rewrite (active_links_dom sc q (snd (emit (ConsoleLog initialized_message) q))) by done.
  destruct (querySelector _ (dom p)) as [h|]; [done|].
  subst q. by apply active_links_same.
Qed.

Lemma remove_remove a l :
  TokenList.remove a (TokenList.remove a l) = TokenList.remove a l.
Proof.
  unfold TokenList.remove. apply filter_all.
  intros x Hx. by apply list_elem_of_filter in Hx as [? _].
Qed.

Lemma remove_add_remove a l :
  TokenList.remove a (TokenList.add a (TokenList.remove a l)) = TokenList.remove a l.
Proof.
  unfold TokenList.add. rewrite contains_remove_eq.
  unfold TokenList.remove at 1. rewrite filter_app.
  rewrite filter_cons_False by (intros H; by apply H). rewrite filter_nil, app_nil_r.
  apply remove_remove.
Qed.

Lemma nav_clicked_idem sc link n e :
  nav_clicked sc link n (nav_clicked sc link n e) = nav_clicked sc link n e.
Proof.
  unfold nav_clicked. repeat case_decide; try done;
    unfold with_classList;
    cbn [classList localName idAttr hrefAttr parentNode style texts];
    f_equal.
  - by rewrite remove_add_remove.
  - apply remove_remove.
Qed.

(** [removeActiveClass] on the links [l], element by element. *)
Lemma remove_active_exact l p :
  (∀ n, n ∈ l → n < length (dom p)) →
  ∃ q, forEach l (λ link, classList_remove (Some link) "active-nav") p = (Normal tt, q)
       ∧ effects q = effects p
       ∧ length (dom q) = length (dom p)
       ∧ ∀ n, dom q !! n
              = if decide (n ∈ l)
                then with_classList (TokenList.remove "active-nav") <$> dom p !! n
                else dom p !! n.
Proof.
  revert p. induction l as [|x l IH]; intros p Hl; cbn [forEach].
  - exists p. by split_and!.
  - destruct (lookup_lt_is_Some_2 (dom p) x) as [e He]; [apply Hl; left|].
    unfold classList_remove at 1.
    erewrite bind_normal by (by eapply update_at).
    set (p1 := mkPage _ _ _ _).
    destruct (IH p1) as (q & Hq & Heff & Hlen & Hdom).
    { intros n Hn. subst p1. cbn [dom]. rewrite length_insert. apply Hl. by right. }
    exists q. split_and!; [done|done| |].
    { rewrite Hlen. subst p1. cbn [dom]. apply length_insert. }
    intros n. rewrite Hdom. subst p1. cbn [dom].
    destruct (decide (n = x)) as [->|Hne].
    + rewrite list_lookup_insert_eq by (by eapply lookup_lt_Some).
      rewrite (decide_True (P := x ∈ x :: l)) by left. rewrite He. cbn.
      case_decide; [|done]. unfold with_classList.
      cbn [classList localName idAttr hrefAttr parentNode style texts
           fmap option_fmap option_map].
      by rewrite remove_remove.
    + rewrite list_lookup_insert_ne by done.
      destruct (decide (n ∈ l)) as [Hn|Hn].
      * by rewrite decide_True by (by right).
      * rewrite decide_False; [done|]. by apply not_elem_of_cons.
Qed.

Lemma on_navLink_click_exact sc p link :
  (∀ n, n ∈ navLinks sc → n < length (dom p)) → link ∈ navLinks sc →
  ∃ q, on_navLink_click sc (Node link) p = (Normal tt, q)
       ∧ effects q = effects p ++ [PreventDefault]
       ∧ length (dom q) = length (dom p)
       ∧ ∀ n, dom q !! n = nav_clicked sc link n <$> dom p !! n.
Proof.
  intros Hl Hin. unfold on_navLink_click. cbn [this_element].
  erewrite bind_normal by apply run_emit.
  set (p1 := mkPage _ _ _ _).
  destruct (remove_active_exact (navLinks sc)
              (mkPage (dom p1) (listeners p1) (S (next_fn p1)) (effects p1)) Hl)
    as (q & Hq & Heff & Hlen & Hdom).
  rewrite <- removeActiveClass_run in Hq. cbn [dom effects] in Heff, Hlen, Hdom.
  rewrite (bind_normal _ _ _ _ _ Hq).
  destruct (lookup_lt_is_Some_2 (dom p) link) as [e He]; [by apply Hl|].
  assert (Hq_link : dom q !! link
                    = Some (with_classList (TokenList.remove "active-nav") e)).
  { rewrite Hdom, decide_True by done. subst p1. cbn [dom]. by rewrite He. }
  unfold classList_add. erewrite update_at by exact Hq_link.
  eexists. split; [reflexivity|]. cbn [dom effects].
  split; [by rewrite Heff|]. split.
  - by rewrite length_insert.
  - intros n. unfold nav_clicked. destruct (decide (n = link)) as [->|Hne].
    + rewrite list_lookup_insert_eq by (by eapply lookup_lt_Some). by rewrite He.
    + rewrite list_lookup_insert_ne by done. rewrite Hdom. subst p1. cbn [dom].
      case_decide; [done|]. by destruct (dom p !! n).
Qed.

(** C1, as the code has it: on a document with no nav link inside the footer
    paragraph (line 163 replaces what is inside it, so a nav link there is
    not one of the links the script has cached), on every page the browser
    can reach, a call of a registered desktop nav-link handler leaves exactly
    one nav link with 'active-nav', the link clicked; a call of the load
    handler leaves exactly one, the home link, when the document has a home
    link ([.nav-link[href="#"]]), and leaves the nav links' 'active-nav'
    marks as they were when it has none. *)
Theorem C1_active_link_exclusive offset_text b d p i :
  nav_links_outside_footer d →
  reachable offset_text b d p → inv_listener i ∈ listeners p →
  let sc := cache d in
  let q := fire offset_text sc i p in
  (fn_code (l_fn (inv_listener i)) = NavLinkClick →
   ∃ link, l_target (inv_listener i) = Node link
           ∧ link ∈ navLinks sc ∧ active_links sc q = [link])
  ∧ (fn_code (l_fn (inv_listener i)) = DOMContentLoaded →
     match querySelector (SelClassHref "nav-link" "#") (dom p) with
     | Some h => h ∈ navLinks sc ∧ active_links sc q = [h]
     | None => active_links sc q = active_links sc p
     end).
Proof.
  intros _ Hr Hin sc q. subst q. unfold fire, invoke.
  rewrite bool_decide_eq_true_2 by done.
  assert (Hv : view (inv_listener i) ∈ script_views sc b).
  { subst sc. rewrite <- (reachable_views _ _ _ _ Hr). unfold views.
    apply list_elem_of_fmap. by exists (inv_listener i). }
  pose proof (cache_ok d) as Hok. fold sc in Hok.
  split; intros Hc; rewrite Hc; cbn [call].
  - apply elem_of_script_views in Hv. unfold view in Hv. rewrite Hc in Hv.
    destruct Hv as [(n & [=] & _)|[(n & [= Ht _] & Hn)|Hv]]; [|naive_solver].
    exists n. rewrite Ht. split_and!; [done..|].
    apply on_navLink_click_active; [|apply querySelectorAll_NoDup|done].
    intros k Hk. rewrite (reachable_length _ _ _ _ Hr). by apply (ok_navLinks _ _ Hok).
  - apply on_DOMContentLoaded_active. by eapply reachable_stable.
Qed.

(** ** What a handler may change *)

Ltac frame_update :=
  unfold frame; let Hn := fresh in intros Hn; exfalso; apply Hn;
  repeat match goal with
         | H : Some _ = Some _ |- _ => injection H as ->
         | H : ?o = Some _ |- _ => rewrite H
         end;
  cbn [this_element option_list]; set_solver.

Lemma call_frame offset_text sc c this ev :
  c ≠ DOMContentLoaded →
  preserves (dom_rel (frame (footprint sc c this))) (call offset_text sc c this ev).
Proof.
  intros Hc. destruct c; try done; cbn [footprint]; unfold_handlers;
    dom_rel_go frame_update.
Qed.

Lemma bind_rel (R : relation Page) `{!PreOrder R} {A B} (m : JS A) (k : A → JS B) p :
  R p (snd (m p)) → (∀ a q, m p = (Normal a, q) → R q (snd (k a q))) →
  R p (snd (bind m k p)).
Proof.
  intros Hm Hk. unfold bind. destruct (m p) as [[a|] q] eqn:Hq; cbn [snd] in *; [|done].
  etrans; [exact Hm|by apply Hk].
Qed.

Lemma activate_frame sc F h :
  (∀ n, n ∈ navLinks sc → n ∈ F) → h ∈ F →
  preserves (dom_rel (frame F))
            (bind (removeActiveClass sc) (λ _, classList_add (Some h) "active-nav")).
Proof.
  intros Hnav Hh. unfold_handlers.
  dom_rel_go ltac:(unfold frame; intros Hn; exfalso; apply Hn;
                   repeat match goal with
                          | H : Some _ = Some _ |- _ => injection H as ->
                          end; auto).
Qed.

Lemma ensure_menu_hidden_frame sc F :
  (∀ m, mobileMenu sc = Some m → m ∈ F) →
  preserves (dom_rel (frame F)) (ensure_menu_hidden sc).
Proof.
  intros HF. unfold_handlers.
  dom_rel_go ltac:(unfold frame; intros Hn; exfalso; apply Hn; by apply HF).
Qed.

Lemma emit_dom_rel E `{∀ n, PreOrder (E n)} x : preserves (dom_rel E) (emit x).
Proof. dom_untouched. Qed.

Lemma on_DOMContentLoaded_frame d p :
  dom_rel (λ _, stable) (initial d) p →
  let sc := cache d in
  dom_rel (frame (footprint sc DOMContentLoaded Window)) p
          (snd (on_DOMContentLoaded sc p)).
Proof.
  intros Hst sc. cbn [footprint]. unfold on_DOMContentLoaded.
  apply bind_rel; [apply _| |].
  { apply ensure_menu_hidden_frame. intros m ->. set_solver. }
  intros [] p1 Hp1.
  assert (Hst1 : dom_rel (λ _, stable) (initial d) p1).
  { etrans; [exact Hst|]. pose proof (ensure_menu_hidden_stable sc p) as H.
    by rewrite Hp1 in H. }
  apply bind_rel; [apply _| |].
  - unfold set_home_active. apply bind_rel; [apply _|reflexivity|].
    intros o q [= <- <-].
    destruct (querySelector _ (dom p1)) as [h|] eqn:Hh; cbn [truthy]; [|reflexivity].
    apply activate_frame.
    + intros n Hn. set_solver.
    + pose proof (home_in_navLinks d p1 h Hst1 Hh). set_solver.
  - intros [] q _. apply emit_dom_rel. apply _.
Qed.

Lemma mutated_frame F p q :
  dom_rel (frame F) p q → ∀ n, n ∈ mutated (dom p) (dom q) → n ∈ F.
Proof.
  intros [Hl H] n Hn. unfold mutated in Hn.
  apply list_elem_of_filter in Hn as [Hne Hn].
  destruct (decide (n ∈ F)) as [|Hout]; [done|]. exfalso. apply Hne.
  apply elem_of_seq in Hn as [_ Hn]. cbn in Hn.
  destruct (lookup_lt_is_Some_2 (dom p) n) as [e He]; [lia|].
  destruct (lookup_lt_is_Some_2 (dom q) n) as [e' He']; [lia|].
  rewrite He, He'. cbn. f_equal. by rewrite (H n e e' He He' Hout).
Qed.

Lemma mutated_NoDup d d' : NoDup (mutated d d').
Proof. unfold mutated. apply NoDup_filter, NoDup_seq. Qed.

(** ** The event types of a component *)

Lemma elem_of_event_types k p ty :
  ty ∈ event_types k p ↔ ∃ v, v ∈ views p ∧ component_of v.2 = k ∧ v.1.2 = ty.
Proof.
  unfold event_types. rewrite elem_of_remove_dups, list_elem_of_fmap.
  split.
  - intros (v & -> & Hv). apply list_elem_of_filter in Hv as [? ?]. by exists v.
  - intros (v & Hv & Hk & <-). exists v. split; [done|].
    by apply list_elem_of_filter.
Qed.

Lemma script_views_type sc b v :
  v ∈ script_views sc b →
  if decide (component_of v.2 = HeroShadow)
  then v.1.2 = "mousemove" ∨ v.1.2 = "mouseleave"
  else v.1.2 = type_of_component (component_of v.2).
Proof.
  rewrite elem_of_script_views.
  intros [(n & -> & ? & ?)|[(n & -> & ?)|[(n & -> & ?)|[(n & -> & ?)|
         [(n & -> & ? & ?)|[(n & -> & ? & ?)|[->|[(n & -> & ?)| ->]]]]]]]];
    cbn [snd fst component_of]; case_decide; try done; auto.
Qed.

Lemma length_le_1 {A} (l : list A) a :
  NoDup l → (∀ x, x ∈ l → x = a) → length l ≤ 1.
Proof.
  intros Hnd Hall. destruct l as [|x [|y l]]; cbn; [lia..|]. exfalso.
  apply NoDup_cons in Hnd as [Hx _]. apply Hx.
  rewrite (Hall x) by left. rewrite <- (Hall y) by (right; left). left.
Qed.

Lemma length_subseteq (l k : list nat) :
  NoDup l → (∀ x, x ∈ l → x ∈ k) → length l ≤ length k.
Proof. intros Hnd Hsub. apply submseteq_length. by apply NoDup_submseteq. Qed.

Lemma footprint_small sc c this :
  c ≠ NavLinkClick → c ≠ DOMContentLoaded → length (footprint sc c this) ≤ 1.
Proof.
  intros H1 H2. destruct c; try done; cbn [footprint];
    first [ destruct (mobileMenu sc); cbn; lia
          | destruct (this_element this); cbn; lia
          | cbn; lia ].
Qed.

Lemma fire_attached offset_text sc i p :
  inv_listener i ∈ listeners p →
  fire offset_text sc i p
  = snd (call offset_text sc (fn_code (l_fn (inv_listener i))) (l_target (inv_listener i))
              (inv_event i) p).
Proof. intros Hin. unfold fire, invoke. by rewrite bool_decide_eq_true_2. Qed.

Lemma fire_frame offset_text b d p i :
  reachable offset_text b d p → inv_listener i ∈ listeners p →
  dom_rel (frame (footprint (cache d) (fn_code (l_fn (inv_listener i)))
                            (l_target (inv_listener i))))
          p (fire offset_text (cache d) i p).
Proof.
  intros Hr Hin. rewrite fire_attached by done.
  destruct (decide (fn_code (l_fn (inv_listener i)) = DOMContentLoaded)) as [Hc|Hc].
  - rewrite Hc. cbn [call]. apply on_DOMContentLoaded_frame. by eapply reachable_stable.
  - by apply call_frame.
Qed.

(** C3, as the code has it: every component has listeners for at most one
    event type, except the hero shadow, whose listeners are for 'mousemove'
    and 'mouseleave'; and a call of a registered handler changes the class
    list or inline style of no element outside its footprint: the mobile menu
    for the hamburger, mobile nav link and resize handlers; the hero image
    for the two hero handlers; the nav links for the desktop nav handler; the
    menu and the nav links for the load handler; no element at all for the
    delivery and franchise handlers.  So every handler but the desktop nav
    handler and the load handler changes at most one element. *)
Theorem C3_components offset_text b d p :
  reachable offset_text b d p →
  let sc := cache d in
  (∀ k, k ≠ HeroShadow → length (event_types k p) ≤ 1)
  ∧ (∀ ty, ty ∈ event_types HeroShadow p → ty = "mousemove" ∨ ty = "mouseleave")
  ∧ (∀ i, inv_listener i ∈ listeners p →
       let c := fn_code (l_fn (inv_listener i)) in
       let this := l_target (inv_listener i) in
       let changed := mutated (dom p) (dom (fire offset_text sc i p)) in
       (∀ n, n ∈ changed → n ∈ footprint sc c this)
       ∧ (c ≠ NavLinkClick → c ≠ DOMContentLoaded → length changed ≤ 1)
       ∧ (c = DeliveryBtnClick ∨ c = FranchiseBtnClick → changed = [])
       ∧ (c = NavLinkClick → ∀ n, n ∈ changed → n ∈ navLinks sc)
       ∧ (c = HeroMouseMove ∨ c = HeroMouseLeave → element (heroDiv sc) = Some this)).
Proof.
  intros Hr sc. split_and!.
  - intros k Hk. apply (length_le_1 _ (type_of_component k)).
    { unfold event_types. apply NoDup_remove_dups. }
    intros ty (v & Hv & <- & <-)%elem_of_event_types.
    rewrite (reachable_views _ _ _ _ Hr) in Hv.
    apply script_views_type in Hv. by rewrite decide_False in Hv.
  - intros ty (v & Hv & Hk & <-)%elem_of_event_types.
    rewrite (reachable_views _ _ _ _ Hr) in Hv.
    apply script_views_type in Hv. by rewrite decide_True in Hv.
  - intros i Hin c this changed.
    pose proof (fire_frame offset_text b d p i Hr Hin) as Hfr. fold sc c this in Hfr.
    pose proof (mutated_frame _ _ _ Hfr) as Hsub. fold changed in Hsub.
    assert (Hv : (this, l_type (inv_listener i), c) ∈ script_views sc b).
    { subst sc. rewrite <- (reachable_views _ _ _ _ Hr). unfold views.
      apply list_elem_of_fmap. by exists (inv_listener i). }
    apply elem_of_script_views in Hv.
    assert (Hnd : NoDup changed) by apply mutated_NoDup.
    clearbody changed c this.
    split_and!.
    + done.
    + intros H1 H2. etrans; [|by apply (footprint_small sc c this)].
      by apply length_subseteq.
    + intros Hc. apply elem_of_nil_inv. intros n Hn%Hsub.
      destruct Hc as [Hc|Hc]; rewrite Hc in Hn; by apply elem_of_nil in Hn.
    + intros Hc n Hn%Hsub. rewrite Hc in Hn, Hv. cbn [footprint] in Hn.
      views_cases Hv; simplify_eq. cbn in Hn. set_solver.
    + intros Hc. destruct Hc as [Hc|Hc]; rewrite Hc in Hv;
        views_cases Hv; simplify_eq;
        match goal with H : heroDiv _ = Some _ |- _ => by rewrite H end.
Qed.

(** ** The menu is not left hidden with an animation *)

Ltac same_menu_update :=
  unfold same_menu_state; cbn;
  rewrite ?contains_add_ne, ?contains_remove_ne by done; done.

Lemma call_same_menu_state offset_text sc c this ev :
  c ∈ [NavLinkClick; DeliveryBtnClick; HeroMouseMove; HeroMouseLeave;
       FranchiseBtnClick; EmptyFunction] →
  preserves (dom_rel (λ _, same_menu_state)) (call offset_text sc c this ev).
Proof.
  intros Hc. destruct c; try (exfalso; set_solver);
    unfold_handlers; dom_rel_go same_menu_update.
Qed.

Lemma set_home_active_same_menu_state sc :
  preserves (dom_rel (λ _, same_menu_state)) (set_home_active sc).
Proof. unfold_handlers. dom_rel_go same_menu_update. Qed.

Lemma clicked_menu_settled e : menu_settled (clicked_menu e).
Proof.
  unfold menu_settled. rewrite clicked_menu_contains, clicked_menu_animation.
  rewrite bool_decide_eq_true_2 by done. by destruct (TokenList.contains _ _).
Qed.

Lemma closed_menu_settled e : menu_settled (closed_menu e).
Proof. by intros _. Qed.

Lemma same_menu_state_settled e e' :
  same_menu_state e e' → menu_settled e → menu_settled e'.
Proof. unfold menu_settled. intros [-> ->]. done. Qed.

(** Every handler but the load handler keeps the menu settled. *)
Lemma fire_settled offset_text b d p i m e :
  reachable offset_text b d p → inv_listener i ∈ listeners p →
  fn_code (l_fn (inv_listener i)) ≠ DOMContentLoaded →
  mobileMenu (cache d) = Some m → dom p !! m = Some e → menu_settled e →
  ∃ e', dom (fire offset_text (cache d) i p) !! m = Some e' ∧ menu_settled e'.
Proof.
  intros Hr Hin Hc Hm He Hs. rewrite fire_attached by done.
  set (c := fn_code (l_fn (inv_listener i))) in *.
  destruct (decide (c ∈ [NavLinkClick; DeliveryBtnClick; HeroMouseMove; HeroMouseLeave;
                         FranchiseBtnClick; EmptyFunction])) as [Hsame|Hother].
  - destruct (call_same_menu_state offset_text (cache d) c (l_target (inv_listener i))
                (inv_event i) Hsame p) as [Hlen Hrel].
    destruct (lookup_lt_is_Some_2
                (dom (snd (call offset_text (cache d) c (l_target (inv_listener i))
                                (inv_event i) p))) m) as [e' He'].
    { rewrite Hlen. by eapply lookup_lt_Some. }
    exists e'. split; [done|].
    eapply same_menu_state_settled; [|exact Hs]. by eapply Hrel.
  - clearbody c.
    destruct c; try done; try (exfalso; apply Hother; by repeat constructor);
      cbn [call].
    + rewrite (on_mobileBtn_click_spec _ _ _ _ Hm He). cbn [snd dom].
      exists (clicked_menu e). split; [js_lookup|apply clicked_menu_settled].
    + rewrite (on_mobileNavLink_click_dom _ _ _ _ _ Hm He).
      exists (closed_menu e). split; [js_lookup|apply closed_menu_settled].
    + rewrite (on_resize_spec _ _ _ _ _ Hm He). cbn [snd].
      destruct (_ && _); cbn [dom].
      * exists (closed_menu e). split; [js_lookup|apply closed_menu_settled].
      * by exists e.
Qed.

(** From a page with a settled menu, no sequence of events that leaves out
    the load handler unsettles it. *)
Lemma run_settled offset_text b d evs : ∀ p m e,
  Forall (λ i, fn_code (l_fn (inv_listener i)) ≠ DOMContentLoaded) evs →
  reachable offset_text b d p →
  mobileMenu (cache d) = Some m → dom p !! m = Some e → menu_settled e →
  ∃ e', dom (run offset_text (cache d) evs p) !! m = Some e' ∧ menu_settled e'.
Proof.
  induction evs as [|i evs IH]; intros p m e Hall Hr Hm He Hs; cbn [run fold_left].
  - by exists e.
  - apply Forall_cons in Hall as [Hi Hall].
    destruct (decide (inv_listener i ∈ listeners p)) as [Hin|Hout].
    + destruct (fire_settled offset_text b d p i m e Hr Hin Hi Hm He Hs) as (e1 & He1 & Hs1).
      apply (IH _ m e1); [done|by apply reachable_fire|done..].
    + assert (Hsame : fire offset_text (cache d) i p = p).
      { unfold fire, invoke. by rewrite bool_decide_eq_false_2. }
      rewrite Hsame. by apply (IH _ m e).
Qed.

Lemma ensure_menu_hidden_spec sc p m e :
  mobileMenu sc = Some m → dom p !! m = Some e →
  ensure_menu_hidden sc p
  = (Normal tt,
     if TokenList.contains "hidden" (classList e) then p
     else mkPage (<[m := with_classList (TokenList.add "hidden") e]> (dom p))
                 (listeners p) (next_fn p) (effects p)).
Proof.
  intros Hm He. unfold ensure_menu_hidden.
  eapply run_bind; [by eapply menu_shown_at|]. cbv beta.
  destruct (TokenList.contains _ _); cbn [negb]; [done|].
  unfold classList_add. rewrite Hm. by eapply update_at.
Qed.

(** The load handler hides the menu and leaves its inline animation as it
    is. *)
Lemma on_DOMContentLoaded_menu sc p m e :
  mobileMenu sc = Some m → dom p !! m = Some e →
  ∃ e', dom (snd (on_DOMContentLoaded sc p)) !! m = Some e'
        ∧ TokenList.contains "hidden" (classList e') = true
        ∧ animation (style e') = animation (style e).
Proof.
  intros Hm He. unfold on_DOMContentLoaded.
  rewrite (bind_normal _ _ _ _ _ (ensure_menu_hidden_spec sc p m e Hm He)).
  set (p1 := if TokenList.contains "hidden" (classList e) then p else _).
  assert (∃ e1, dom p1 !! m = Some e1
                ∧ TokenList.contains "hidden" (classList e1) = true
                ∧ animation (style e1) = animation (style e)) as (e1 & He1 & Hh1 & Ha1).
  { subst p1. destruct (TokenList.contains "hidden" (classList e)) eqn:Hh.
    - by exists e.
    - eexists. split; [js_lookup|]. split; [apply contains_add_eq|done]. }
  assert (Hrel : dom_rel (λ _, same_menu_state) p1
                   (snd (bind (set_home_active sc)
                              (λ _, emit (ConsoleLog initialized_message)) p1))).
  { apply (preserves_bind (dom_rel (λ _, same_menu_state))).
    - apply set_home_active_same_menu_state.
    - intros ?. apply emit_dom_rel. apply _. }
  destruct Hrel as [Hlen Hrel].
  destruct (lookup_lt_is_Some_2
              (dom (snd (bind (set_home_active sc)
                              (λ _, emit (ConsoleLog initialized_message)) p1))) m)
    as [e' He']; [rewrite Hlen; by eapply lookup_lt_Some|].
  exists e'. split; [done|].
  destruct (Hrel m e1 e' He1 He') as [-> ->]. done.
Qed.

(** C10, at the input where the code breaks it: the menu starts hidden with an
    empty inline animation; a hamburger click opens it; the load handler then
    hides it again and leaves the fade-in animation in place, where the
    mobile nav link handler and the resize handler clear it. *)
Theorem C10_load_after_open offset_text :
  let sc := cache menu_hidden_page in
  let ev := resize_to 1024 in
  let p := run offset_text sc [mkInvocation hamburger_listener ev; mkInvocation load_listener ev]
               (loaded desktop menu_hidden_page) in
  (animation ∘ style <$> menu_hidden_page !! 1) = Some ""
  ∧ hamburger_listener ∈ listeners (loaded desktop menu_hidden_page)
  ∧ load_listener ∈ listeners (loaded desktop menu_hidden_page)
  ∧ ∃ e, dom p !! 1 = Some e
         ∧ TokenList.contains "hidden" (classList e) = true
         ∧ animation (style e) = fadeIn
         ∧ ¬ menu_settled e.
Proof.
  cbv zeta. split; [done|]. split; [by vm_compute; repeat constructor|].
  split; [vm_compute; repeat constructor|].
  eexists. split; [vm_compute; reflexivity|].
  split; [done|]. split; [done|].
  intros H. specialize (H eq_refl). discriminate H.
Qed.

(** ** Reversibility *)





(** ** What a handler does to each element *)

Lemma on_hero_mouseleave_spec h e p :
  dom p !! h = Some e →
  on_hero_mouseleave (Node h) p
  = (Normal tt,
     mkPage (<[h := with_style (set_boxShadow leave_shadow) e]> (dom p))
            (listeners p) (next_fn p) (effects p)).
Proof. intros He. unfold on_hero_mouseleave, style_set_boxShadow. by eapply update_at. Qed.

Lemma on_hero_mousemove_exact offset_text h e p ev :
  dom p !! h = Some e →
  on_hero_mousemove offset_text (Node h) ev p
  = (Normal tt,
     mkPage (<[h := with_style (set_boxShadow (move_shadow offset_text ev)) e]> (dom p))
            (listeners p) (next_fn p) (effects p)).
Proof.
  intros He. unfold on_hero_mousemove, style_set_boxShadow, move_shadow.
  by eapply update_at.
Qed.

Lemma on_hero_mousemove_spec offset_text h e p ev :
  dom p !! h = Some e →
  ∃ v, on_hero_mousemove offset_text (Node h) ev p
       = (Normal tt,
          mkPage (<[h := with_style (set_boxShadow v) e]> (dom p))
                 (listeners p) (next_fn p) (effects p)).
Proof. intros He. eexists. by apply on_hero_mousemove_exact. Qed.








(** ** The look of an element after a handler *)
































(** ** Changes that no event undoes *)

#[global] Instance shadow_kept_preorder : PreOrder shadow_kept.
Proof. split; unfold shadow_kept; [by intros ?|]. intros ??? H1 H2 ?. by apply H2, H1. Qed.

#[global] Instance hidden_kept_preorder : PreOrder hidden_kept.
Proof. split; unfold hidden_kept; [by intros ?|]. intros ??? H1 H2 ?. by apply H2, H1. Qed.

#[global] Instance head_kept_preorder : PreOrder head_kept.
Proof. split; unfold head_kept; [by intros ?|]. intros ??? H1 H2 ?. by apply H2, H1. Qed.

















(** ** The claims at concrete pages *)

(** C1 fails as stated: with two nav links marked active in the markup and
    no home link, the load handler leaves both marked. *)
Lemma C1_two_active_after_load :
  let sc := cache two_active_no_home in
  let p := loaded desktop two_active_no_home in
  ¬ (length (active_links sc (snd (on_DOMContentLoaded sc p))) ≤ 1).
Proof.
  cbv zeta.
  assert (active_links (cache two_active_no_home)
            (snd (on_DOMContentLoaded (cache two_active_no_home)
                    (loaded desktop two_active_no_home))) = [0; 1]) as ->
    by (vm_compute; reflexivity).
  cbn. lia.
Qed.

Lemma C1_witness :
  ∃ link, l_target nav_listener = Node link
          ∧ link ∈ navLinks (cache full_page)
          ∧ active_links (cache full_page)
              (fire whole_offset_text (cache full_page)
                    (mkInvocation nav_listener (resize_to 1024))
                    (loaded desktop full_page))
            = [link].
Proof.
  refine (proj1 (C1_active_link_exclusive whole_offset_text desktop full_page
                   (loaded desktop full_page)
                   (mkInvocation nav_listener (resize_to 1024)) _ _ _) _).
  - intros f [= <-]. apply (bool_decide_unpack _). vm_compute. exact I.
  - apply reachable_loaded.
  - vm_compute. repeat constructor.
  - reflexivity.
Defined.

(** C2 fails as stated: a menu the markup leaves shown, with no inline
    animation, has the fade-in animation after two hamburger clicks. *)
Lemma C2_animation_not_restored :
  let sc := cache menu_shown_page in
  let p := loaded desktop menu_shown_page in
  let q := snd (on_mobileBtn_click sc (snd (on_mobileBtn_click sc p))) in
  (animation ∘ style <$> dom q !! 1) ≠ (animation ∘ style <$> dom p !! 1).
Proof. cbv zeta. vm_compute. discriminate. Qed.

Lemma C2_witness :
  ∃ e2,
    dom (snd (on_mobileBtn_click (cache menu_shown_page)
                (snd (on_mobileBtn_click (cache menu_shown_page)
                        (loaded desktop menu_shown_page))))) !! 1 = Some e2
    ∧ (∀ t, TokenList.contains t (classList e2)
            = TokenList.contains t ["mobile-menu"])
    ∧ animation (style e2) = fadeIn
    ∧ (animation (style e2) = "" ↔ "" = fadeIn).
Proof.
  apply (C2_double_toggle (cache menu_shown_page) (loaded desktop menu_shown_page) 1
           (plain "div" (Some "mobileMenu") None None ["mobile-menu"] "")).
  - reflexivity.
  - reflexivity.
Defined.

(** C4 fails as stated: at a width of exactly 768, which is not strictly
    greater than the breakpoint, the resize handler closes a shown menu. *)
Lemma C4_closes_at_breakpoint :
  let sc := cache menu_shown_page in
  let p := loaded desktop menu_shown_page in
  let q := snd (on_resize sc (resize_to 768) p) in
  ¬ (innerWidth (resize_to 768) > md_breakpoint)%Z
  ∧ (TokenList.contains "hidden" ∘ classList <$> dom p !! 1) = Some false
  ∧ (TokenList.contains "hidden" ∘ classList <$> dom q !! 1) = Some true.
Proof. cbv zeta. split; [vm_compute; discriminate|]. split; reflexivity. Qed.

Lemma C4_witness :
  let p := loaded desktop menu_shown_page in
  let e := plain "div" (Some "mobileMenu") None None ["mobile-menu"] "" in
  let q := snd (on_resize (cache menu_shown_page) (resize_to 768) p) in
  ((768 ≤ 768)%Z ∧ TokenList.contains "hidden" (classList e) = false
   → dom q = <[1 := closed_menu e]> (dom p)
     ∧ TokenList.contains "hidden" (classList (closed_menu e)) = true
     ∧ animation (style (closed_menu e)) = "")
  ∧ (¬ ((768 ≤ 768)%Z ∧ TokenList.contains "hidden" (classList e) = false)
     → q = p).
Proof.
  apply (C4_resize_closes (cache menu_shown_page) (resize_to 768)
           (loaded desktop menu_shown_page) 1
           (plain "div" (Some "mobileMenu") None None ["mobile-menu"] "")).
  - reflexivity.
  - reflexivity.
Defined.



(** C3 fails as stated: the hero shadow has listeners for two event types,
    and the delivery handler changes no element. *)
Lemma C3_two_types_and_no_element :
  let p := loaded desktop full_page in
  ¬ (length (event_types HeroShadow p) = 1)
  ∧ ¬ (length (mutated (dom p) (dom (snd (on_deliveryBtn_click p)))) = 1).
Proof. cbv zeta. split; vm_compute; discriminate. Qed.

Lemma C3_witness :
  let p := loaded desktop full_page in
  let i := mkInvocation delivery_listener (resize_to 1024) in
  length (event_types DeliveryDemo p) ≤ 1
  ∧ mutated (dom p) (dom (fire whole_offset_text (cache full_page) i p)) = [].
Proof.
  cbv zeta.
  pose proof (C3_components whole_offset_text desktop full_page
                (loaded desktop full_page) (reachable_loaded _ _ _)) as (H1 & _ & H3).
  split.
  - apply H1. discriminate.
  - refine (proj1 (proj2 (proj2 (H3 (mkInvocation delivery_listener (resize_to 1024)) _))) _).
    + vm_compute. repeat constructor.
    + left. reflexivity.
Defined.

Lemma C6_witness :
  fst (invoke whole_offset_text (cache full_page)
         (mkInvocation nav_listener (resize_to 1024)) (loaded desktop full_page))
  = Normal tt
  ∧ ∀ v, v ∈ views (loaded desktop []) → v.2 ≠ MobileBtnClick.
Proof.
  split.
  - apply (C6_absent_elements whole_offset_text desktop full_page).
    apply reachable_loaded.
  - apply (C6_absent_elements whole_offset_text desktop []).
    left. reflexivity.
Defined.

Lemma C7_witness :
  let sc := cache menu_shown_page in
  let q := snd (on_mobileNavLink_click sc (Node 0) (loaded desktop menu_shown_page)) in
  (∃ e', dom q !! 1 = Some e'
         ∧ TokenList.contains "hidden" (classList e') = true
         ∧ animation (style e') = "")
  ∧ dom (snd (on_mobileNavLink_click sc (Node 0) q)) = dom q.
Proof.
  apply (C7_mobile_link_closes (cache menu_shown_page) (Node 0)
           (loaded desktop menu_shown_page) 1
           (plain "div" (Some "mobileMenu") None None ["mobile-menu"] "")).
  - reflexivity.
  - reflexivity.
Defined.



Lemma C9_witness :
  views (snd (setup_touch (cache full_page) (with_touch true desktop)
                (initial full_page)))
  = views (initial full_page).
Proof.
  refine (proj1 (proj2 (C9_touch_block_detaches_nothing (with_touch true desktop) full_page))
            [] (texts <$> full_page) (initial full_page) _ _).
  - rewrite length_fmap. apply cache_ok.
  - apply initial_tracked.
Defined.

(** * Further properties of the script *)

(** ** The listener table after the script has run *)

(** X1: no handler registers or removes a listener: whatever events reach
    the page, from whatever page, the listener table stays as it was.  The
    function objects the handlers do create (the callback of
    [removeActiveClass]) are never registered. *)
Theorem X1_handlers_keep_listeners offset_text sc evs p :
  listeners (run offset_text sc evs p) = listeners p.
Proof.
  apply (run_preserves keeps_listeners offset_text sc).
  intros c this ev. apply call_keeps_listeners.
Qed.

(** ** What no handler changes *)

Lemma children_same d d' n :
  length d' = length d →
  (∀ m e e', d !! m = Some e → d' !! m = Some e' → parentNode e' = parentNode e) →
  children d' n = children d n.
Proof.
  intros Hl H. unfold children. rewrite Hl. apply List.filter_ext. intros m.
  destruct (d !! m) as [e|] eqn:Hd, (d' !! m) as [e'|] eqn:Hd'; cbn.
  - by rewrite (H m e e' Hd Hd').
  - apply lookup_ge_None in Hd'. apply lookup_lt_Some in Hd. lia.
  - apply lookup_ge_None in Hd. apply lookup_lt_Some in Hd'. lia.
  - done.
Qed.

(** [textContent] reads the same where no element was moved and no Text
    child changed. *)
Lemma textContent_of_same d d' :
  length d' = length d →
  (∀ m e e', d !! m = Some e → d' !! m = Some e' →
             parentNode e' = parentNode e ∧ texts e' = texts e) →
  ∀ fuel n, textContent_of d' fuel n = textContent_of d fuel n.
Proof.
  intros Hl H fuel. induction fuel as [|fuel IH]; intros n; [done|].
  cbn [textContent_of].
  rewrite (children_same d d' n Hl) by (intros m e e' ? ?; by apply (H m e e')).
  destruct (d !! n) as [e|] eqn:Hd, (d' !! n) as [e'|] eqn:Hd'.
  - destruct (H n e e' Hd Hd') as [_ ->]. f_equal. apply map_ext. intros m. apply IH.
  - apply lookup_ge_None in Hd'. apply lookup_lt_Some in Hd. lia.
  - apply lookup_ge_None in Hd. apply lookup_lt_Some in Hd'. lia.
  - done.
Qed.

(** X2: no handler changes an element's name, id, href, parent or Text
    children, nor any class token other than 'hidden' and 'active-nav', and
    no handler adds or removes an element: this holds from every page, along
    every sequence of events.  So [textContent] reads the same for every
    node, before and after. *)
Theorem X2_handlers_keep_markup offset_text sc evs p :
  let q := run offset_text sc evs p in
  length (dom q) = length (dom p)
  ∧ (∀ n e e', dom p !! n = Some e → dom q !! n = Some e' →
       localName e' = localName e
       ∧ idAttr e' = idAttr e
       ∧ hrefAttr e' = hrefAttr e
       ∧ parentNode e' = parentNode e
       ∧ texts e' = texts e
       ∧ ∀ t, t ≠ "hidden" → t ≠ "active-nav" →
              TokenList.contains t (classList e') = TokenList.contains t (classList e))
  ∧ ∀ n, textContent_of (dom q) (length (dom q)) n
         = textContent_of (dom p) (length (dom p)) n.
Proof.
  intros q. subst q.
  destruct (run_preserves (dom_rel (λ _, stable)) offset_text sc
              (λ c this ev, call_stable offset_text sc c this ev) evs p) as [Hl Hs].
  destruct (run_preserves (dom_rel (λ _, same_texts)) offset_text sc
              (λ c this ev, call_same_texts offset_text sc c this ev) evs p) as [_ Hh].
  split; [done|]. split.
  - intros n e e' Hp Hq.
    destruct (Hs n e e' Hp Hq) as (? & ? & ? & ? & ?).
    pose proof (Hh n e e' Hp Hq) as Htexts. unfold same_texts in Htexts.
    split_and!; done.
  - intros n. rewrite Hl. apply textContent_of_same; [done|].
    intros m e e' Hp Hq. split; [by apply (Hs m e e' Hp Hq)|by apply (Hh m e e' Hp Hq)].
Qed.

(** ** Dialogs *)

#[global] Instance same_alerts_preorder : PreOrder same_alerts.
Proof. split; unfold same_alerts; [done|]. intros ???; congruence. Qed.

Lemma alerts_emit x p :
  alerts (snd (emit x p))
  = alerts p ++ match x with Alert msg => [msg] | _ => [] end.
Proof. unfold alerts. cbn [emit snd effects]. rewrite flat_map_app. cbn. by rewrite app_nil_r. Qed.

Lemma same_alerts_emit x :
  (∀ msg, x ≠ Alert msg) → preserves same_alerts (emit x).
Proof.
  intros Hx p. unfold same_alerts. rewrite alerts_emit.
  destruct x; try by rewrite app_nil_r. by destruct (Hx msg).
Qed.

Lemma same_alerts_effects {A} (m : JS A) :
  (∀ p, effects (snd (m p)) = effects p) → preserves same_alerts m.
Proof. intros H p. unfold same_alerts, alerts. by rewrite H. Qed.

Lemma effects_get {A} o (f : Element → A) p : effects (snd (get o f p)) = effects p.
Proof. unfold get. by destruct (o ≫= _). Qed.

Lemma effects_update o f p : effects (snd (update o f p)) = effects p.
Proof. unfold update. destruct o as [n|]; [|done]. by destruct (dom p !! n). Qed.

Lemma effects_textContent o p : effects (snd (textContent o p)) = effects p.
Proof. unfold textContent. destruct o as [n|]; [|done]. by destruct (dom p !! n). Qed.

Ltac same_alerts_go :=
  repeat first
    [ apply preserves_ret; apply _
    | apply preserves_bind; [apply _ | | intros ?]
    | apply preserves_forEach; [apply _ | intros ? ?]
    | apply same_alerts_emit; by intros ?
    | apply same_alerts_effects; intros ?;
      first [ apply effects_get | apply effects_update | apply effects_textContent
            | reflexivity ]
    | match goal with
      | |- preserves _ (if ?c then _ else _) => destruct c
      end ].

Lemma call_same_alerts offset_text sc c this ev :
  c ≠ DeliveryBtnClick → c ≠ FranchiseBtnClick →
  preserves same_alerts (call offset_text sc c this ev).
Proof.
  intros H1 H2. destruct c; try done; unfold_handlers; same_alerts_go.
Qed.

Lemma fire_alerts offset_text sc i p :
  alerts (fire offset_text sc i p) = alerts p ++ alerts_of_invocation p i.
Proof.
  unfold fire, invoke, alerts_of_invocation.
  case_bool_decide; [|by rewrite app_nil_r].
  destruct (decide (fn_code (l_fn (inv_listener i)) = DeliveryBtnClick)) as [Hc|Hd].
  { rewrite Hc. cbn [call alert_of]. unfold on_deliveryBtn_click.
    rewrite (bind_normal _ _ _ _ _ (run_emit _ _)).
    rewrite alerts_emit. unfold alerts at 1. cbn [effects].
    rewrite flat_map_app. cbn. by rewrite app_nil_r. }
  destruct (decide (fn_code (l_fn (inv_listener i)) = FranchiseBtnClick)) as [Hc|Hf].
  { rewrite Hc. cbn [call alert_of]. unfold on_franchiseBtn_click.
    rewrite (bind_normal _ _ _ _ _ (run_emit _ _)).
    rewrite alerts_emit. unfold alerts at 1. cbn [effects].
    rewrite flat_map_app. cbn. by rewrite app_nil_r. }
  rewrite (call_same_alerts offset_text sc _ _ _ Hd Hf p).
  destruct (fn_code (l_fn (inv_listener i))); try done; cbn [alert_of];
    by rewrite app_nil_r.
Qed.

(** X3: the dialogs shown along any sequence of events are exactly the demo
    messages of the delivery-button and franchise-button clicks that reached
    a registered listener, one each, in the order of the clicks; no other
    handler ever shows a dialog. *)
Theorem X3_dialogs offset_text sc evs p :
  alerts (run offset_text sc evs p)
  = alerts p ++ flat_map (alerts_of_invocation p) evs.
Proof.
  revert p. induction evs as [|i evs IH]; intros p; cbn [run fold_left flat_map].
  - by rewrite app_nil_r.
  - change (fold_left _ evs ?q) with (run offset_text sc evs q).
    rewrite IH, fire_alerts, <- app_assoc. f_equal. f_equal.
    apply flat_map_ext. intros j. unfold alerts_of_invocation.
    assert (listeners (fire offset_text sc i p) = listeners p) as ->; [|done].
    apply (fire_preserves keeps_listeners offset_text sc).
    intros c this ev. apply call_keeps_listeners.
Qed.

(** ** What evaluating the script does to the document *)

Lemma dom_fn_ret N : dom_fn N id (ret tt).
Proof. intros p Hp. by exists p. Qed.

Lemma dom_fn_bind N f g h (m k : JS unit) :
  dom_fn N f m → dom_fn N g k → (∀ d, h d = g (f d)) →
  dom_fn N h (bind m (λ _, k)).
Proof.
  intros Hm Hk Hh p Hp. destruct (Hm p Hp) as (q & Hq & Hd & Hl).
  destruct (Hk q Hl) as (r & Hr & Hd' & Hl'). exists r.
  split; [by rewrite (bind_normal _ _ _ _ _ Hq)|].
  split; [|done]. by rewrite Hd', Hd, Hh.
Qed.

Lemma dom_fn_listen N t ty c : dom_fn N id (listen (Some t) ty c).
Proof.
  intros p Hp. unfold listen, bind, new_function, addEventListener.
  cbn [dom listeners next_fn effects]. eexists. split; [reflexivity|].
  case_bool_decide; done.
Qed.

Lemma dom_fn_forEach_listen N l ty c :
  dom_fn N id (forEach l (λ n, listen (Some (Node n)) ty c)).
Proof.
  induction l as [|n l IH]; cbn [forEach]; [apply dom_fn_ret|].
  eapply dom_fn_bind; [apply dom_fn_listen|exact IH|done].
Qed.

Lemma dom_fn_arrow N : dom_fn N id arrow_function.
Proof. intros p Hp. by eexists. Qed.

Lemma dom_fn_forEach_arrow_listen N l ty c :
  dom_fn N id (bind arrow_function (λ _, forEach l (λ n, listen (Some (Node n)) ty c))).
Proof. eapply dom_fn_bind; [apply dom_fn_arrow|apply dom_fn_forEach_listen|done]. Qed.

Lemma dom_fn_on_element N o ty c :
  dom_fn N id (if truthy o then listen (element o) ty c else ret tt).
Proof. destruct o; cbn; [apply dom_fn_listen|apply dom_fn_ret]. Qed.

Lemma dom_fn_setup_year N sc b :
  scope_ok sc N → dom_fn N (year_dom sc b) (setup_year sc b).
Proof.
  intros Hsc. unfold setup_year, year_dom.
  destruct (footerYearSpan sc) as [f|] eqn:Hf; cbn [truthy]; [|apply dom_fn_ret].
  intros p Hp. destruct (lookup_lt_is_Some_2 (dom p) f) as [e He].
  { rewrite Hp. by eapply ok_footerYearSpan. }
  eexists. split.
  { eapply run_bind; [by eapply get_at|]. cbv beta. by eapply update_at. }
  cbn [dom]. rewrite length_insert. split; [|done].
  by rewrite (alter_at _ _ _ _ He).
Qed.

Lemma dom_fn_setup_touch N sc b :
  scope_ok sc N → dom_fn N (touch_dom sc b) (setup_touch sc b).
Proof.
  intros Hsc. unfold setup_touch, touch_dom.
  destruct (has_ontouchstart b); [|apply dom_fn_ret].
  destruct (heroDiv sc) as [h|] eqn:Hh; cbn [truthy].
  2:{ eapply dom_fn_bind; [apply dom_fn_ret|apply dom_fn_ret|done]. }
  intros p Hp. destruct (lookup_lt_is_Some_2 (dom p) h) as [e He].
  { rewrite Hp. by eapply ok_heroDiv. }
  eexists. split.
  { eapply run_bind; [reflexivity|]. cbv beta.
    unfold style_set_boxShadow. eapply update_at. cbn. exact He. }
  cbn [dom with_listeners]. rewrite length_insert. split; [|done].
  by rewrite (alter_at _ _ _ _ He).
Qed.

Lemma year_dom_length sc b d : length (year_dom sc b d) = length d.
Proof. unfold year_dom. destruct (footerYearSpan sc); [apply length_alter|done]. Qed.

Lemma dom_fn_skip N g (m k : JS unit) :
  dom_fn N id m → dom_fn N g k → dom_fn N g (bind m (λ _, k)).
Proof. intros Hm Hk. by eapply dom_fn_bind. Qed.

Lemma dom_fn_script N sc b :
  scope_ok sc N → dom_fn N (script_dom sc b) (script sc b).
Proof.
  intros Hsc. unfold script, script_dom.
  apply dom_fn_skip.
  { unfold setup_mobile_menu. destruct (mobileMenu sc); cbn [truthy].
    - rewrite andb_true_r. apply dom_fn_on_element.
    - rewrite andb_false_r. apply dom_fn_ret. }
  apply dom_fn_skip.
  { unfold setup_navigation. apply dom_fn_skip; [apply dom_fn_arrow|].
    apply dom_fn_skip; [apply dom_fn_forEach_listen|apply dom_fn_forEach_arrow_listen]. }
  apply dom_fn_skip; [apply dom_fn_forEach_arrow_listen|].
  apply dom_fn_skip.
  { unfold setup_hero. destruct (heroDiv sc), (hover_matches b);
      cbn [truthy element fmap option_fmap option_map]; try apply dom_fn_ret.
    apply dom_fn_skip; apply dom_fn_listen. }
  apply (dom_fn_bind N (year_dom sc b) (touch_dom sc b));
    [by apply dom_fn_setup_year| |done].
  apply dom_fn_skip; [apply dom_fn_listen|].
  apply dom_fn_skip; [apply dom_fn_on_element|].
  apply (dom_fn_bind N (touch_dom sc b) id);
    [by apply dom_fn_setup_touch|apply dom_fn_listen|done].
Qed.

Lemma lookup_alter_field {A} (g : Element → A) f i (l : Document) n :
  (∀ e, g (f e) = g e) → g <$> alter f i l !! n = g <$> l !! n.
Proof.
  intros Hg. destruct (decide (i = n)) as [->|Hne].
  - rewrite list_lookup_alter_eq. destruct (l !! n); cbn; [by rewrite Hg|done].
  - by rewrite list_lookup_alter_ne.
Qed.

(** X4: on a document whose footer paragraph holds text only, evaluating
    the script changes the elements in two places at most: the Text child of
    the footer paragraph, which becomes the text parsed from the paragraph's
    markup with the leftmost '2024' replaced by the current year, and, only
    when the window has 'ontouchstart', the inline box shadow of the hero
    image, which becomes the simplified shadow.  Every class list and every
    inline animation is as the markup has it. *)
Theorem X4_script_document b d :
  footer_text_only d →
  dom (loaded b d) = script_dom (cache d) b d
  ∧ (∀ n, classList <$> dom (loaded b d) !! n = classList <$> d !! n)
  ∧ (∀ n, animation ∘ style <$> dom (loaded b d) !! n = animation ∘ style <$> d !! n).
Proof.
  intros _.
  destruct (dom_fn_script (length d) (cache d) b (cache_ok d) (initial d) eq_refl)
    as (q & Hq & Hd & _).
  assert (Hdom : dom (loaded b d) = script_dom (cache d) b d).
  { unfold loaded, main. by rewrite Hq. }
  split; [done|]. rewrite Hdom. unfold script_dom, touch_dom, year_dom.
  split; intros n;
    destruct (has_ontouchstart b), (heroDiv (cache d)) as [h|],
      (footerYearSpan (cache d)) as [f|];
    rewrite ?lookup_alter_field by done; done.
Qed.

Lemma X4_witness :
  dom (loaded desktop footer_page)
  = [ plain "footer" None None None [] "";
      plain "p" None None (Some 0) [] "(c) 2026 Popper Poi" ].
Proof.
  refine (eq_trans (proj1 (X4_script_document desktop footer_page _)) _).
  - intros f [= <-]. reflexivity.
  - reflexivity.
Defined.

Lemma loaded_dom b d : dom (loaded b d) = script_dom (cache d) b d.
Proof.
  destruct (dom_fn_script (length d) (cache d) b (cache_ok d) (initial d) eq_refl)
    as (q & Hq & Hd & _).
  unfold loaded, main. by rewrite Hq.
Qed.

(** X5: the script registers, in this order: the hamburger click listener
    (when both the button and the menu exist), a click listener on every
    desktop nav link, on every mobile nav link and on every delivery button,
    the two hero listeners (when the hero image exists and hover is
    supported), the window's resize listener, the franchise click listener
    (when the button exists) and the window's DOMContentLoaded listener; it
    registers nothing else.  On a document with none of these elements it
    registers the two window listeners and leaves the document as it is. *)
Theorem X5_registered_listeners b d :
  views (loaded b d) = script_views (cache d) b
  ∧ (nothing_found (cache d) →
     views (loaded b d)
     = [(Window, "resize", WindowResize);
        (Window, "DOMContentLoaded", DOMContentLoaded)]
     ∧ dom (loaded b d) = d).
Proof.
  split; [apply loaded_views|].
  intros (Hb & Hm & Hn & Hmn & Hd & Hh & Hf & Hfr).
  rewrite loaded_views, loaded_dom.
  unfold script_views, script_dom, touch_dom, year_dom.
  rewrite Hb, Hm, Hn, Hmn, Hd, Hh, Hf, Hfr. cbn.
  by destruct (hover_matches b), (has_ontouchstart b).
Qed.

Lemma X5_witness :
  views (loaded desktop [])
  = [(Window, "resize", WindowResize); (Window, "DOMContentLoaded", DOMContentLoaded)]
  ∧ dom (loaded desktop []) = [].
Proof.
  apply (X5_registered_listeners desktop []).
  repeat split.
Defined.

(** ** The hero image's shadow *)

(** X6: on leaving the hero image its inline box shadow becomes the resting
    shadow '12px 12px 0 #2c2c2c, 16px 16px 20px rgba(0,0,0,0.3)', whatever
    it was: a shadow set by an earlier mousemove is overwritten, and so is the
    simplified shadow of touch devices, which is a different one.  Nothing
    else of the element, and no other element, changes; a second mouseleave
    changes nothing. *)
Theorem X6_hero_mouseleave offset_text h e p ev :
  dom p !! h = Some e →
  let leave := on_hero_mouseleave (Node h) in
  let move := on_hero_mousemove offset_text (Node h) ev in
  dom (snd (leave p)) = <[h := with_style (set_boxShadow leave_shadow) e]> (dom p)
  ∧ boxShadow (style (with_style (set_boxShadow leave_shadow) e)) ≠ touch_shadow
  ∧ classList (with_style (set_boxShadow leave_shadow) e) = classList e
  ∧ animation (style (with_style (set_boxShadow leave_shadow) e)) = animation (style e)
  ∧ dom (snd (leave (snd (move p)))) = dom (snd (leave p))
  ∧ dom (snd (leave (snd (leave p)))) = dom (snd (leave p)).
Proof.
  intros He leave move. subst leave move.
  rewrite (on_hero_mouseleave_spec h e p He). cbn [snd dom].
  split_and!; try done.
  - destruct (on_hero_mousemove_spec offset_text h e p ev He) as (v & ->). cbn [snd].
    erewrite on_hero_mouseleave_spec by js_lookup. cbn [snd dom].
    by rewrite list_insert_insert_eq.
  - erewrite on_hero_mouseleave_spec by js_lookup. cbn [snd dom].
    by rewrite list_insert_insert_eq.
Qed.

Lemma X6_witness :
  dom (snd (on_hero_mouseleave (Node 4) (loaded (with_touch true desktop) full_page)))
  = <[4 := with_style (set_boxShadow leave_shadow)
             (with_style (set_boxShadow touch_shadow)
                (plain "div" None None None ["hero-food-img"] ""))]>
      (dom (loaded (with_touch true desktop) full_page)).
Proof.
  refine (proj1 (X6_hero_mouseleave whole_offset_text 4
                   (with_style (set_boxShadow touch_shadow)
                      (plain "div" None None None ["hero-food-img"] ""))
                   (loaded (with_touch true desktop) full_page) (resize_to 1024) _)).
  vm_compute. reflexivity.
Defined.

(** ** The hamburger button, one click *)

(** X7: one hamburger click flips the menu's 'hidden' token and leaves every
    other class token; the inline animation becomes the fade-in when the menu
    is thereby shown and empty when it is thereby hidden; the box shadow and
    every other element stay as they are, and the click's propagation is
    stopped. *)
Theorem X7_hamburger_click sc p m e :
  mobileMenu sc = Some m → dom p !! m = Some e →
  let q := snd (on_mobileBtn_click sc p) in
  ∃ e',
    dom q = <[m := e']> (dom p)
    ∧ TokenList.contains "hidden" (classList e')
      = negb (TokenList.contains "hidden" (classList e))
    ∧ (∀ t, t ≠ "hidden" →
            TokenList.contains t (classList e') = TokenList.contains t (classList e))
    ∧ animation (style e')
      = (if TokenList.contains "hidden" (classList e) then fadeIn else "")
    ∧ boxShadow (style e') = boxShadow (style e)
    ∧ effects q = effects p ++ [StopPropagation].
Proof.
  intros Hm He q. subst q. rewrite (on_mobileBtn_click_spec sc p m e Hm He).
  cbn [snd dom effects]. exists (clicked_menu e). split_and!; try done.
  - rewrite clicked_menu_contains. by rewrite bool_decide_eq_true_2.
  - intros t Ht. rewrite clicked_menu_contains. by rewrite bool_decide_eq_false_2.
  - apply clicked_menu_animation.
Qed.

Lemma X7_witness :
  ∃ e',
    dom (snd (on_mobileBtn_click (cache menu_hidden_page)
                (loaded desktop menu_hidden_page)))
    = <[1 := e']> (dom (loaded desktop menu_hidden_page))
    ∧ TokenList.contains "hidden" (classList e') = false
    ∧ (∀ t, t ≠ "hidden" →
            TokenList.contains t (classList e')
            = TokenList.contains t ["mobile-menu"; "hidden"])
    ∧ animation (style e') = fadeIn
    ∧ boxShadow (style e') = ""
    ∧ effects (snd (on_mobileBtn_click (cache menu_hidden_page)
                      (loaded desktop menu_hidden_page)))
      = [StopPropagation].
Proof.
  apply (X7_hamburger_click (cache menu_hidden_page) (loaded desktop menu_hidden_page) 1
           (plain "div" (Some "mobileMenu") None None ["mobile-menu"; "hidden"] "")).
  - vm_compute. reflexivity.
  - vm_compute. reflexivity.
Defined.

(** ** A page without the mobile menu *)

(** X8: when the document has no #mobileMenu, the handlers that close the
    menu skip it: the mobile nav link handler leaves the document as it is,
    and the resize handler and the menu part of the load handler leave the
    whole page as it is and complete normally. *)
Theorem X8_no_menu sc this ev p :
  mobileMenu sc = None →
  dom (snd (on_mobileNavLink_click sc this p)) = dom p
  ∧ on_resize sc ev p = (Normal tt, p)
  ∧ ensure_menu_hidden sc p = (Normal tt, p).
Proof.
  intros Hm. split_and!.
  - by apply on_mobileNavLink_click_no_menu.
  - by apply on_resize_no_menu.
  - unfold ensure_menu_hidden. by rewrite (bind_normal _ _ _ _ _ (menu_shown_none sc p Hm)).
Qed.

Lemma X8_witness :
  dom (snd (on_mobileNavLink_click (cache footer_page) (Node 1)
              (loaded desktop footer_page)))
  = dom (loaded desktop footer_page)
  ∧ on_resize (cache footer_page) (resize_to 1024) (loaded desktop footer_page)
    = (Normal tt, loaded desktop footer_page)
  ∧ ensure_menu_hidden (cache footer_page) (loaded desktop footer_page)
    = (Normal tt, loaded desktop footer_page).
Proof.
  apply (X8_no_menu (cache footer_page) (Node 1) (resize_to 1024)
           (loaded desktop footer_page)).
  vm_compute. reflexivity.
Defined.

(** ** A click on a desktop nav link, element by element *)

(** X9: a click on a desktop nav link changes class lists only, and only
    their 'active-nav' token: the link clicked ends with the token (moved to
    the end of its list), every other nav link without it, every other
    element as it was; the default action is prevented.  A second click on
    the same link changes nothing in the document. *)
Theorem X9_nav_click sc p link :
  (∀ n, n ∈ navLinks sc → n < length (dom p)) → link ∈ navLinks sc →
  let q := snd (on_navLink_click sc (Node link) p) in
  (∀ n, dom q !! n = nav_clicked sc link n <$> dom p !! n)
  ∧ effects q = effects p ++ [PreventDefault]
  ∧ dom (snd (on_navLink_click sc (Node link) q)) = dom q.
Proof.
  intros Hl Hin q. subst q.
  destruct (on_navLink_click_exact sc p link Hl Hin) as (q & -> & Heff & Hlen & Hdom).
  cbn [snd]. split; [done|]. split; [done|].
  destruct (on_navLink_click_exact sc q link) as (r & -> & _ & _ & Hdom'); [|done|].
  { intros n Hn. rewrite Hlen. by apply Hl. }
  cbn [snd]. apply list_eq. intros n. rewrite Hdom', Hdom.
  destruct (dom p !! n); cbn; [|done]. by rewrite nav_clicked_idem.
Qed.

Lemma X9_witness :
  let sc := cache full_page in
  let q := snd (on_navLink_click sc (Node 3) (loaded desktop full_page)) in
  (∀ n, dom q !! n = nav_clicked sc 3 n <$> dom (loaded desktop full_page) !! n)
  ∧ effects q = effects (loaded desktop full_page) ++ [PreventDefault]
  ∧ dom (snd (on_navLink_click sc (Node 3) q)) = dom q.
Proof.
  apply (X9_nav_click (cache full_page) (loaded desktop full_page) 3).
  - intros n Hn. rewrite (reachable_length whole_offset_text desktop full_page)
      by apply reachable_loaded.
    by apply (ok_navLinks _ _ (cache_ok full_page)).
  - vm_compute. repeat constructor.
Defined.

(** ** The menu and the load handler *)

(** X10: along any sequence of events that leaves out the load handler, a
    menu that is not hidden with an inline animation stays so: after every
    hamburger click, mobile nav link click, resize, nav link click, hero or
    button event, whenever the menu carries 'hidden' its inline animation is
    empty. *)
Theorem X10_settled_without_load offset_text b d evs p m e :
  load_free evs → reachable offset_text b d p →
  mobileMenu (cache d) = Some m → dom p !! m = Some e → menu_settled e →
  ∃ e', dom (run offset_text (cache d) evs p) !! m = Some e' ∧ menu_settled e'.
Proof. intros. by eapply run_settled. Qed.

Lemma X10_witness :
  ∃ e', dom (run whole_offset_text (cache menu_hidden_page)
               [mkInvocation hamburger_listener (resize_to 1024);
                mkInvocation hamburger_listener (resize_to 1024)]
               (loaded desktop menu_hidden_page)) !! 1 = Some e'
        ∧ menu_settled e'.
Proof.
  apply (X10_settled_without_load whole_offset_text desktop menu_hidden_page _ _ 1
           (plain "div" (Some "mobileMenu") None None ["mobile-menu"; "hidden"] "")).
  - repeat constructor; discriminate.
  - apply reachable_loaded.
  - vm_compute. reflexivity.
  - vm_compute. reflexivity.
  - intros _. reflexivity.
Defined.

(** X11: the load handler leaves the menu hidden, whatever its state, and
    does not touch its inline animation: the menu is hidden with an empty
    animation afterwards exactly when the animation was empty before. *)
Theorem X11_load_hides_menu sc p m e :
  mobileMenu sc = Some m → dom p !! m = Some e →
  ∃ e', dom (snd (on_DOMContentLoaded sc p)) !! m = Some e'
        ∧ TokenList.contains "hidden" (classList e') = true
        ∧ animation (style e') = animation (style e)
        ∧ (menu_settled e' ↔ animation (style e) = "").
Proof.
  intros Hm He.
  destruct (on_DOMContentLoaded_menu sc p m e Hm He) as (e' & He' & Hh & Ha).
  exists e'. split_and!; try done. unfold menu_settled. rewrite Hh, Ha. naive_solver.
Qed.

Lemma X11_witness :
  ∃ e', dom (snd (on_DOMContentLoaded (cache menu_shown_page)
                    (loaded desktop menu_shown_page))) !! 1 = Some e'
        ∧ TokenList.contains "hidden" (classList e') = true
        ∧ animation (style e') = ""
        ∧ (menu_settled e' ↔ "" = "").
Proof.
  apply (X11_load_hides_menu (cache menu_shown_page) (loaded desktop menu_shown_page) 1
           (plain "div" (Some "mobileMenu") None None ["mobile-menu"] "")).
  - vm_compute. reflexivity.
  - vm_compute. reflexivity.
Defined.

Lemma loaded_animation b d n :
  animation ∘ style <$> dom (loaded b d) !! n = animation ∘ style <$> d !! n.
Proof.
  rewrite loaded_dom. unfold script_dom, touch_dom, year_dom.
  destruct (has_ontouchstart b), (heroDiv (cache d)) as [h|],
    (footerYearSpan (cache d)) as [f|];
    rewrite ?lookup_alter_field by done; done.
Qed.


(** X12: when the markup gives the menu no inline animation and the load
    handler, if it runs at all, runs as the first event after the script,
    then after every further sequence of events the menu is never hidden
    with an inline animation. *)
Theorem X12_settled_when_load_first offset_text b d m e0 i rest :
  mobileMenu (cache d) = Some m → d !! m = Some e0 → animation (style e0) = "" →
  load_free rest →
  ∃ e', dom (run offset_text (cache d) (i :: rest) (loaded b d)) !! m = Some e'
        ∧ menu_settled e'.
Proof.
  intros Hm He0 Ha Hrest.
  pose proof (loaded_animation b d m) as Hanim. rewrite He0 in Hanim. cbn in Hanim.
  destruct (dom (loaded b d) !! m) as [e1|] eqn:He1; [|done].
  injection Hanim as Hanim. rewrite Ha in Hanim.
  pose proof (reachable_loaded offset_text b d) as Hr.
  destruct (decide (fn_code (l_fn (inv_listener i)) = DOMContentLoaded
                    ∧ inv_listener i ∈ listeners (loaded b d))) as [[Hc Hin]|Hno].
  - cbn [run fold_left].
    change (fold_left _ rest ?q) with (run offset_text (cache d) rest q).
    destruct (on_DOMContentLoaded_menu (cache d) (loaded b d) m e1 Hm He1)
      as (e2 & He2 & Hh2 & Ha2).
    apply (run_settled offset_text b d rest _ m e2 Hrest).
    + by apply reachable_fire.
    + done.
    + rewrite fire_attached by done. by rewrite Hc.
    + intros _. by rewrite Ha2.
  - destruct (decide (inv_listener i ∈ listeners (loaded b d))) as [Hin|Hout].
    + apply (run_settled offset_text b d (i :: rest) _ m e1); try done.
      * apply Forall_cons. split; [|done]. intros Hc. by apply Hno.
      * by intros _.
    + cbn [run fold_left].
      change (fold_left _ rest ?q) with (run offset_text (cache d) rest q).
      assert (fire offset_text (cache d) i (loaded b d) = loaded b d) as ->.
      { unfold fire, invoke. by rewrite bool_decide_eq_false_2. }
      apply (run_settled offset_text b d rest _ m e1); try done. by intros _.
Qed.

Lemma X12_witness :
  ∃ e', dom (run whole_offset_text (cache menu_hidden_page)
               [mkInvocation load_listener (resize_to 1024);
                mkInvocation hamburger_listener (resize_to 1024)]
               (loaded desktop menu_hidden_page)) !! 1 = Some e'
        ∧ menu_settled e'.
Proof.
  apply (X12_settled_when_load_first whole_offset_text desktop menu_hidden_page 1
           (plain "div" (Some "mobileMenu") None None ["mobile-menu"; "hidden"] "")).
  - vm_compute. reflexivity.
  - reflexivity.
  - reflexivity.
  - repeat constructor; discriminate.
Defined.

(** ** When the year patch changes the footer *)

(** What the parser drops is gone, and it adds nothing. *)
Lemma occurs_drop_nul c s :
  Html.occurs c s = false → Html.occurs c (Html.drop_nul s) = false.
Proof.
  induction s as [|x s IH]; [done|]. cbn [Html.occurs Html.drop_nul].
  intros [Hx Hs]%orb_false_iff. destruct (Ascii.eqb x Html.NUL); [by apply IH|].
  cbn [Html.occurs]. by rewrite Hx, IH.
Qed.

Lemma drop_nul_no_NUL s : Html.occurs Html.NUL (Html.drop_nul s) = false.
Proof.
  induction s as [|x s IH]; [done|]. cbn [Html.drop_nul].
  destruct (Ascii.eqb x Html.NUL) eqn:Hx; [done|]. cbn [Html.occurs]. by rewrite Hx.
Qed.

Lemma escape_inj s t : Html.escape s = Html.escape t → s = t.
Proof. intros H. by rewrite <- (decode_escape s), H, decode_escape. Qed.

(** X13: for a footer paragraph with text only, the script changes the
    paragraph's markup exactly when the markup names '2024' and the current
    year is not 2024, or the text holds a carriage return or a U+0000, which
    do not come back from the parser.  In the year 2024, and for a footer
    that does not name 2024, a text without those characters is kept. *)
Theorem X13_footer_changed_iff b d f t :
  footerYearSpan (cache d) = Some f → footer_text d f t →
  innerHTML_of <$> dom (loaded b d) !! f ≠ Some (Html.escape t)
  ↔ ((∃ i, Str.occurs_at "2024" (Html.escape t) i) ∧ currentYear b ≠ 2024%Z)
    ∨ Html.occurs Html.CR t = true ∨ Html.occurs Html.NUL t = true.
Proof.
  intros Hf [Ht _].
  set (year := Str.of_number (currentYear b)).
  set (u := Str.replace "2024" year t).
  assert (Hrep : Str.replace "2024" year (Html.escape t) = Html.escape u).
  { apply replace_escape; [done|apply of_number_year|apply of_number_nonempty]. }
  assert (Hl : innerHTML_of <$> dom (loaded b d) !! f
               = Some (Html.escape (Html.drop_nul (Html.normalize_newlines u)))).
  { destruct (footer_patched (λ _ _, "") b d (loaded b d) f t
                (reachable_loaded _ b d) Hf Ht) as [Hp _].
    destruct (dom (loaded b d) !! f) as [e|]; [|done]. cbn in *. injection Hp as Hp.
    unfold innerHTML_of. rewrite Hp. cbn. by rewrite app_nil_r_string. }
  rewrite Hl. clear Hl.
  destruct (Html.occurs Html.CR t) eqn:Hcr.
  { split; [auto|]. intros _ [= H%escape_inj].
    pose proof (occurs_drop_nul _ _ (normalize_no_CR u)) as Hno. congruence. }
  destruct (Html.occurs Html.NUL t) eqn:Hnul.
  { split; [auto|]. intros _ [= H%escape_inj].
    pose proof (drop_nul_no_NUL (Html.normalize_newlines u)) as Hno. congruence. }
  assert (Hu : Html.drop_nul (Html.normalize_newlines u) = u).
  { apply clean_id; apply occurs_replace; try done;
      by apply occurs_year, of_number_year. }
  rewrite Hu. split.
  - intros Hne. left.
    assert (Hr : Str.replace "2024" year (Html.escape t) ≠ Html.escape t) by congruence.
    split; [by eapply replace_changed_occurs|].
    intros Hy. apply Hr. subst year. rewrite Hy. apply (replace_self "2024").
  - intros [[[i Hi] Hy]|[?|?]]; try done. intros [= H]. rewrite <- Hrep in H.
    revert H. apply (replace_changes _ _ _ i Hi).
    intros Heq. apply Hy. by apply (inj (pretty : Z → string)).
Qed.

Lemma X13_witness :
  innerHTML_of <$> dom (loaded desktop footer_page) !! 1 ≠ Some "(c) 2024 Popper Poi"
  ↔ ((∃ i, Str.occurs_at "2024" "(c) 2024 Popper Poi" i) ∧ 2026%Z ≠ 2024%Z)
    ∨ false = true ∨ false = true.
Proof.
  apply (X13_footer_changed_iff desktop footer_page 1 "(c) 2024 Popper Poi").
  - reflexivity.
  - split; reflexivity.
Defined.
